(** * Sia: EC keys, EC-Schnorr signatures and HostDB construction

    A shallow embedding of
      - crypto/eckey.go      (key encodings, point compression),
      - crypto/ecschnorr.go  (EC-Schnorr signing and verification),
      - modules/renter/hostdb/hostdb.go (HostDB construction),
      - modules/renter/renter.go and files.go (the renter's constructor, its
        files and their map),
    together with the properties the specification states about them, and
    further properties read off the code.

    Go values are modelled as follows: [*big.Int] is [Z], a byte is
    [Byte.byte], a byte slice is a [list byte] (a [slice] where being nil is
    observed), a run-time panic is [None], an [error] is an inductive type. *)

From Stdlib Require Import ZArith List Lia Bool Znumtheory.
From Stdlib Require Import Zmod.Zmod Zmod.Zstar.
From Stdlib Require Import Strings.Byte.
From Stdlib Require Strings.String.
Import ListNotations.

#[local] Open Scope Z_scope.

(** ** Modular exponentiation, as computed by [big.Int.Exp] *)

Fixpoint powmod_pos (x : Z) (e : positive) (m : Z) : Z :=
  match e with
  | xH => x mod m
  | xO e' => let t := powmod_pos x e' m in (t * t) mod m
  | xI e' => let t := powmod_pos x e' m in ((t * t) mod m * x) mod m
  end.

Definition powmod (x e m : Z) : Z :=
  match e with
  | Zpos p => powmod_pos x p m
  | _ => 1 mod m
  end.

(** ** Primality certificates: the checker *)

Module Cert.

(** A certificate for [n]: a base [a] and prime powers [q ^ e] whose
    product [F] divides [n - 1] and satisfies [n <= F * F]. *)
Definition cert : Type := Z * Z * list (Z * Z).

Definition cert_n (c : cert) : Z := fst (fst c).

Definition prod_pp (qs : list (Z * Z)) : Z :=
  fold_right (fun qe acc => fst qe ^ snd qe * acc) 1 qs.

Fixpoint pairwise_coprime (qs : list (Z * Z)) : bool :=
  match qs with
  | [] => true
  | qe :: r => (Z.gcd (fst qe ^ snd qe) (prod_pp r) =? 1) && pairwise_coprime r
  end.

Definition check_factor (known : list Z) (n a : Z) (qe : Z * Z) : bool :=
  existsb (Z.eqb (fst qe)) known && (0 <=? snd qe)
  && (Z.gcd (powmod a ((n - 1) / fst qe) n - 1) n =? 1).

Definition check_entry (known : list Z) (c : cert) : bool :=
  let '(n, a, qs) := c in
  let F := prod_pp qs in
  (1 <? n) && (0 <? F) && ((n - 1) mod F =? 0) && (n <=? F * F)
  && (powmod a (n - 1) n =? 1)
  && forallb (check_factor known n a) qs && pairwise_coprime qs.

Fixpoint check_chain (known : list Z) (cs : list cert) : bool :=
  match cs with
  | [] => true
  | c :: r => check_entry known c && check_chain (cert_n c :: known) r
  end.

(** The certificate chain for the secp256k1 field modulus
    [2^256 - 2^32 - 977]. *)
Definition secp256k1_chain : list cert :=
  [ (3, 2, [(2, 1)]);
    (7, 2, [(3, 1)]);
    (5, 2, [(2, 2)]);
    (11, 2, [(5, 1)]);
    (271, 2, [(3, 3)]);
    (1627, 2, [(271, 1)]);
    (41, 3, [(2, 3)]);
    (83, 2, [(41, 1)]);
    (2657, 2, [(83, 1)]);
    (41201, 3, [(2, 4); (5, 2)]);
    (101, 2, [(5, 2)]);
    (96557, 2, [(2, 2); (101, 1)]);
    (255515944373312847190720520512484175977, 3,
      [(2, 3); (7, 2); (11, 1); (1627, 1); (2657, 1); (41201, 1); (96557, 1)]);
    (205115282021455665897114700593932402728804164701536103180137503955397371, 2,
      [(255515944373312847190720520512484175977, 1)]);
    (115792089237316195423570985008687907853269984665640564039457584007908834671663, 2,
      [(205115282021455665897114700593932402728804164701536103180137503955397371, 1)]) ].

(** The residue of [a] modulo [p], and the same as a unit. *)
Definition residue (p a : Z) : Zmod p := Zmod.of_Z p a.

Definition unit_residue (p a : Z) : Zstar p := Zstar.of_Zmod (residue p a).

End Cert.

(** ** Bytes and byte slices *)

Definition Z_of_byte (b : byte) : Z := Z.of_N (Byte.to_N b).

Definition byte_of_Z (z : Z) : byte :=
  match Byte.of_N (Z.to_N (z mod 256)) with
  | Some b => b
  | None => x00
  end.

(** A Go slice, where [None] is the nil slice. *)
Definition slice : Type := option (list byte).

Definition len (s : slice) : nat :=
  match s with
  | None => 0%nat
  | Some bs => length bs
  end.

(** [make([]byte, n)] *)
Definition make (n : nat) : list byte := repeat x00 n.

(** [s[lo:hi]] for [lo <= hi <= len(s)] *)
Definition sub (s : list byte) (lo hi : nat) : list byte :=
  firstn (hi - lo) (skipn lo s).

(** [copy(dst[lo:hi], src)]: the first [min (hi - lo) (len src)] bytes of
    [src] overwrite [dst] from index [lo]. *)
Definition copy (dst : list byte) (lo hi : nat) (src : list byte) : list byte :=
  let n := Nat.min (hi - lo) (length src) in
  firstn lo dst ++ firstn n src ++ skipn (lo + n) dst.

(** [s[i]], which panics out of range. *)
Definition index (s : list byte) (i : Z) : option byte :=
  if i <? 0 then None else nth_error s (Z.to_nat i).

(** ** [math/big]: the operations of [*big.Int] the package uses *)

Module BigInt.

(** [SetBytes]: the big-endian unsigned integer held by a buffer. *)
Definition SetBytes (buf : list byte) : Z :=
  fold_left (fun acc b => acc * 256 + Z_of_byte b) buf 0.

Fixpoint be_digits (fuel : nat) (z : Z) : list byte :=
  match fuel with
  | O => []
  | S f => if z =? 0 then [] else be_digits f (z / 256) ++ [byte_of_Z z]
  end.

(** [Bytes]: the big-endian bytes of the absolute value, without leading
    zeros; the empty slice for zero. *)
Definition Bytes (x : Z) : list byte :=
  be_digits (S (Z.to_nat (Z.log2 (Z.abs x)))) (Z.abs x).

(** [Mod]: Euclidean modulus, the result is in [0, |m|). *)
Definition Mod (x m : Z) : Z := x mod Z.abs m.

(** [Exp(x, y, m)] is [x^y mod |m|]; it is [1] for [y <= 0] and [x^y] for
    [m = 0]. *)
Definition Exp (x y m : Z) : Z :=
  match y with
  | Zpos e => if m =? 0 then x ^ y else powmod_pos x e (Z.abs m)
  | _ => 1
  end.

End BigInt.

(** ** crypto/eckey.go *)

Definition ECCoordinateSize : nat := 32.
Definition ECHeaderCompressedEven : byte := x02.
Definition ECHeaderCompressedOdd : byte := x03.
Definition ECHeaderUncompressed : byte := x04.
Definition ECHeaderSerializedSecret : byte := x08.

Record ECPublic : Type := mkECPublic { X : Z; Y : Z }.

Record ECSecret : Type := mkECSecret { Public : ECPublic; R : Z }.

(** Go's [error] values: the sentinel errors of the two packages, and any
    other error (of the entropy source, the file system, a dependency). *)
Inductive error : Type :=
  | ErrInvalidCompressedPublic
  | ErrInvalidSerializedPublic
  | ErrInvalidSerializedSecret
  | ErrECSchnorrVerify
  | errNilCS
  | errNilWallet
  | errNilTpool
  | ErrOther (msg : String.string).

Inductive result (A : Type) : Type :=
  | Ok (a : A)
  | Err (e : error).
Arguments Ok {A} a.
Arguments Err {A} e.

(** Modelled from the spec: the curve object [s256] is declared outside the
    files at hand; the specification names it secp256k1, whose domain
    parameters are the field modulus [P], the group order [N] and the
    coefficient [B] of [y^2 = x^3 + B]. *)
Definition s256_P : Z := 2 ^ 256 - 2 ^ 32 - 977.
Definition s256_N : Z :=
  0xFFFFFFFFFFFFFFFFFFFFFFFFFFFFFFFEBAAEDCE6AF48A03BBFD25E8CD0364141.
Definition s256_B : Z := 7.

Definition bigThree : Z := 3.

Definition sqRootExp : Z :=
  0x3FFFFFFFFFFFFFFFFFFFFFFFFFFFFFFFFFFFFFFFFFFFFFFFFFFFFFFFBFFFFF0C.

Definition pad (bytes : slice) (size : nat) : list byte :=
  match bytes with
  | None => make size
  | Some bs =>
      if (size <=? length bs)%nat then
        let offset := (length bs - size)%nat in
        sub bs offset (length bs)
      else
        let padded := make size in
        let offset := (size - length bs)%nat in
        copy padded offset size bs
  end.

Definition Serialize (pub : ECPublic) : list byte :=
  let data := [ECHeaderUncompressed] in
  let padx := pad (Some (BigInt.Bytes (X pub))) ECCoordinateSize in
  let pady := pad (Some (BigInt.Bytes (Y pub))) ECCoordinateSize in
  (data ++ padx) ++ pady.

Definition DeserializeECPublic (data : slice) : result ECPublic :=
  match data with
  | None => Err ErrInvalidSerializedPublic
  | Some bs =>
      if negb (length bs =? 1 + 2 * ECCoordinateSize)%nat then
        Err ErrInvalidSerializedPublic
      else
        match bs with
        | [] => Err ErrInvalidSerializedPublic
        | b0 :: _ =>
            if negb (Byte.eqb b0 ECHeaderUncompressed) then
              Err ErrInvalidSerializedPublic
            else
              let xBytes := sub bs 1 (1 + ECCoordinateSize) in
              let yBytes := sub bs (1 + ECCoordinateSize) (length bs) in
              Ok {| X := BigInt.SetBytes xBytes; Y := BigInt.SetBytes yBytes |}
        end
  end.

(** [bigIntParity]: the last byte of [i.Bytes()] modulo 2; indexing the
    empty slice panics. *)
Definition bigIntParity (i : Z) : option Z :=
  let iBytes := BigInt.Bytes i in
  match index iBytes (Z.of_nat (length iBytes) - 1) with
  | None => None
  | Some lastByteI => Some (Z_of_byte lastByteI mod 2)
  end.

Definition Compress (pub : ECPublic) : option (list byte) :=
  match bigIntParity (Y pub) with
  | None => None
  | Some parity =>
      let header :=
        if parity =? 0 then ECHeaderCompressedEven else ECHeaderCompressedOdd in
      let data := [header] in
      let padx := pad (Some (BigInt.Bytes (X pub))) ECCoordinateSize in
      Some (data ++ padx)
  end.

Definition UncompressECPublic (data : slice) : option (result ECPublic) :=
  match data with
  | None => Some (Err ErrInvalidCompressedPublic)
  | Some bs =>
      if negb (length bs =? 1 + ECCoordinateSize)%nat then
        Some (Err ErrInvalidCompressedPublic)
      else
        match bs with
        | [] => Some (Err ErrInvalidCompressedPublic)
        | header :: _ =>
            if negb (Byte.eqb header ECHeaderCompressedEven)
               && negb (Byte.eqb header ECHeaderCompressedOdd) then
              Some (Err ErrInvalidCompressedPublic)
            else
              let xBytes := sub bs 1 (length bs) in
              let x := BigInt.SetBytes xBytes in
              let yTemp := BigInt.Exp x bigThree s256_P in
              let yTemp := yTemp + s256_B in
              let yTemp := BigInt.Mod yTemp s256_P in
              let yTemp := BigInt.Exp yTemp sqRootExp s256_P in
              match bigIntParity yTemp with
              | None => None
              | Some yParity =>
                  let headerParity := Z_of_byte header mod 2 in
                  let yTemp :=
                    if negb (Z.lxor yParity headerParity =? 0) then
                      BigInt.Mod (s256_P - yTemp) s256_P
                    else yTemp in
                  Some (Ok {| X := x; Y := yTemp |})
              end
        end
  end.

(** The curve library behind [s256], as the package calls it
    ([elliptic.Curve]); points are pairs of coordinates. *)
Class Curve : Type := {
  ScalarBaseMult : list byte -> Z * Z;
  ScalarMult : Z -> Z -> list byte -> Z * Z;
  Add : Z -> Z -> Z -> Z -> Z * Z
}.

Section ECKeys.
Context {s256 : Curve}.

Definition ComputeECPublic (rBytes : list byte) : ECPublic :=
  let (rGx, rGy) := ScalarBaseMult rBytes in
  {| X := rGx; Y := rGy |}.

Definition SerializeSecret (sec : ECSecret) : list byte :=
  let data := [ECHeaderSerializedSecret] in
  let padr := pad (Some (BigInt.Bytes (R sec))) ECCoordinateSize in
  data ++ padr.

Definition DeserializeECSecret (data : slice) : result ECSecret :=
  if negb (len data =? 1 + ECCoordinateSize)%nat then
    Err ErrInvalidSerializedSecret
  else
    match data with
    | None | Some [] => Err ErrInvalidSerializedSecret
    | Some ((b0 :: _) as bs) =>
        if negb (Byte.eqb b0 ECHeaderSerializedSecret) then
          Err ErrInvalidSerializedSecret
        else
          let rBytes := sub bs 1 (length bs) in
          let pubKey := ComputeECPublic rBytes in
          Ok {| Public := pubKey; R := BigInt.SetBytes rBytes |}
    end.
End ECKeys.

(** ** crypto/subtle: constant-time comparison *)

Module Subtle.

(** [int((uint32(x^y) - 1) >> 31)] on [uint8] arguments. *)
Definition ConstantTimeByteEq (x y : Z) : Z :=
  Z.shiftr ((Z.lxor x y - 1) mod 2 ^ 32) 31.

(** One iteration of the loop [v |= x[i] ^ y[i]]. *)
Definition xor_into (v : Z) (xy : byte * byte) : Z :=
  Z.lor v (Z.lxor (Z_of_byte (fst xy)) (Z_of_byte (snd xy))).

(** What an execution does besides computing a value: the branches it
    takes and the indices at which it reads its arguments. *)
Inductive event : Type :=
  | Branch (taken : bool)
  | Index (i : nat).

(** One iteration of the loop [for i := 0; i < len(x); i++ { v |= x[i] ^ y[i] }]
    with what it executes: the loop test, then the reads at [i]. *)
Definition loop_step (st : Z * list event) (ixy : nat * (byte * byte))
    : Z * list event :=
  (xor_into (fst st) (snd ixy), snd st ++ [Branch true; Index (fst ixy)]).

(** The function with the trace of its execution: the test on the lengths,
    the loop over every index, the last loop test; [ConstantTimeByteEq] is
    straight-line arithmetic. *)
Definition ConstantTimeCompare_run (x y : list byte) : Z * list event :=
  if negb (length x =? length y)%nat then (0, [Branch true])
  else
    let st := fold_left loop_step
                (combine (seq 0 (length x)) (combine x y))
                (0, [Branch false]) in
    (ConstantTimeByteEq (fst st) 0, snd st ++ [Branch false]).

(** The value [ConstantTimeCompare] returns. *)
Definition ConstantTimeCompare (x y : list byte) : Z :=
  fst (ConstantTimeCompare_run x y).

End Subtle.

(** ** crypto/ecschnorr.go *)

Definition ECSchnorrEntropySize : nat := 32.

(** Modelled from the spec: [HashSize], the length of the package's hash
    type, is declared outside the files at hand; digests are 32 bytes. *)
Definition HashSize : nat := 32.

(** [E] is a [Hash], [S] an [ECSchnorrCoeff]: arrays of 32 bytes. *)
Record ECSchnorrSig : Type := mkECSchnorrSig { SigE : list byte; SigS : list byte }.

Section ECSchnorr.
Context {s256 : Curve}.

(** The package's hash function, declared outside the files at hand. *)
Variable HashBytes : list byte -> list byte.

(** [rnd] is what [RandBytes(ECSchnorrEntropySize)] returned to this call. *)
Definition ECSchnorrSign (rnd : result (list byte)) (data : list byte)
    (secKey : ECSecret) : option (result ECSchnorrSig) :=
  match rnd with
  | Err err => Some (Err err)
  | Ok k =>
      let kPub := ComputeECPublic k in
      let serKPub := Serialize kPub in
      let hashData := make (length data + length serKPub) in
      let hashData := copy hashData 0 (length data) data in
      let hashData := copy hashData (length data) (length hashData) serKPub in
      let e := HashBytes hashData in
      let kInt := BigInt.SetBytes k in
      let eInt := BigInt.SetBytes e in
      let s := eInt * R secKey in
      let s := kInt - s in
      let s := BigInt.Mod s s256_N in
      let sBytes := BigInt.Bytes s in
      let offset := Z.of_nat HashSize - Z.of_nat (length sBytes) in
      if offset <? 0 then None
      else
        let coeff := copy (make ECSchnorrEntropySize) (Z.to_nat offset)
                          ECSchnorrEntropySize sBytes in
        Some (Ok {| SigE := e; SigS := coeff |})
  end.

(** [nil] is [None]. *)
Definition Verify (sig : ECSchnorrSig) (data : list byte) (pubKey : ECPublic)
    : option error :=
  let (sGx, sGy) := ScalarBaseMult (SigS sig) in
  let (ePubx, ePuby) := ScalarMult (X pubKey) (Y pubKey) (SigE sig) in
  let (kGx, kGy) := Add sGx sGy ePubx ePuby in
  let kG := {| X := kGx; Y := kGy |} in
  let serPub := Serialize kG in
  let hashData := make (length data + length serPub) in
  let hashData := copy hashData 0 (length data) data in
  let hashData := copy hashData (length data) (length hashData) serPub in
  let e := HashBytes hashData in
  if negb (Subtle.ConstantTimeCompare e (SigE sig) =? 1) then
    Some ErrECSchnorrVerify
  else None.
End ECSchnorr.

(** The challenge and the response of a signature made with nonce [k]:
    [e = H(m || K)] and [s = (k - e.r) mod N]. *)
Definition challenge {s256 : Curve} (HashBytes : list byte -> list byte)
    (k data : list byte) : list byte :=
  HashBytes (data ++ Serialize (ComputeECPublic k)).

Definition response {s256 : Curve} (HashBytes : list byte -> list byte)
    (k data : list byte) (sec : ECSecret) : Z :=
  (BigInt.SetBytes k - BigInt.SetBytes (challenge HashBytes k data) * R sec)
    mod s256_N.

(** What the package expects of the curve library, on scalars of at most 32
    bytes (longer ones make [ScalarBaseMult] panic, says eckey.go): the base
    point generates a group of order [N], so [ScalarMult] and [Add] act on
    multiples of the base point through the scalars modulo [N]. *)
Definition scalar (k : list byte) : Prop := (length k <= 32)%nat.

Class CurveLaws (s256 : Curve) : Prop := {
  scalar_mult_base : forall r e c,
    scalar r -> scalar e -> scalar c ->
    BigInt.SetBytes c mod s256_N
      = (BigInt.SetBytes e * BigInt.SetBytes r) mod s256_N ->
    ScalarMult (fst (ScalarBaseMult r)) (snd (ScalarBaseMult r)) e
      = ScalarBaseMult c;
  add_base : forall a b c,
    scalar a -> scalar b -> scalar c ->
    BigInt.SetBytes c mod s256_N
      = (BigInt.SetBytes a + BigInt.SetBytes b) mod s256_N ->
    Add (fst (ScalarBaseMult a)) (snd (ScalarBaseMult a))
        (fst (ScalarBaseMult b)) (snd (ScalarBaseMult b))
      = ScalarBaseMult c
}.

(** A point of the curve [y^2 = x^3 + B] over the field of [P] elements. *)
Definition on_curve (pub : ECPublic) : Prop :=
  0 <= X pub < s256_P /\ 0 <= Y pub < s256_P /\
  (Y pub * Y pub) mod s256_P = (X pub ^ 3 + s256_B) mod s256_P.

(** The wire format in the specification's words: "65 bytes =
    0x04 || X(32) || Y(32), big-endian, left-padded with zeros".  Byte [i]
    of the [n]-byte big-endian form of [x] is the digit of weight
    [256^(n-1-i)]. *)
Definition be_bytes (n : nat) (x : Z) : list byte :=
  map (fun i => byte_of_Z (x / 256 ^ Z.of_nat (n - 1 - i))) (seq 0 n).

Definition Serialize_spec (pub : ECPublic) : list byte :=
  x04 :: be_bytes 32 (X pub) ++ be_bytes 32 (Y pub).

Definition Compress_spec (pub : ECPublic) : list byte :=
  (if Z.even (Y pub) then x02 else x03) :: be_bytes 32 (X pub).

(** The known-answer points [ecTestCases] of the package's tests. *)
Module TestCases.
Definition G : ECPublic :=
  {| X := 0x79BE667EF9DCBBAC55A06295CE870B07029BFCDB2DCE28D959F2815B16F81798;
     Y := 0x483ADA7726A3C4655DA4FBFC0E1108A8FD17B448A68554199C47D08FFB10D4B8 |}.
Definition G2 : ECPublic :=
  {| X := 0xC6047F9441ED7D6D3045406E95C07CD85C778E4B8CEF3CA7ABAC09B95C709EE5;
     Y := 0x1AE168FEA63DC339A3C58419466CEAEEF7F632653266D0E1236431A950CFE52A |}.
Definition G3 : ECPublic :=
  {| X := 0xF9308A019258C31049344F85F89D5229B531C845836F99B08601F113BCE036F9;
     Y := 0x388F7B0F632DE8140FE337E62A37F3566500A99934C2231B6CB9FD7584B8E672 |}.
Definition G17 : ECPublic :=
  {| X := 0xDEFDEA4CDB677750A420FEE807EACF21EB9898AE79B9768766E4FAA04A2D4A34;
     Y := 0x4211AB0694635168E997B0EAD2A93DAECED1F4A04A95C0F6CFB199F69E56EB77 |}.
Definition Gm8 : ECPublic :=
  {| X := 0x2F01E5E15CCA351DAFF3843FB70F3C2F0A1BDD05E5AF888A67784EF3E10A2A01;
     Y := 0xA3B25758BEAC66B6D6C2F7D5ECD2EC4B3D1DEC2945A489E84A25D3479342132B |}.
Definition Gm1 : ECPublic :=
  {| X := 0x79BE667EF9DCBBAC55A06295CE870B07029BFCDB2DCE28D959F2815B16F81798;
     Y := 0xB7C52588D95C3B9AA25B0403F1EEF75702E84BB7597AABE663B82F6F04EF2777 |}.
Definition points : list ECPublic := [G; G2; G3; G17; Gm8; Gm1].
End TestCases.

(** The square-root candidate of [UncompressECPublic] for abscissa [x]. *)
Definition candidate (x : Z) : Z :=
  let yTemp := BigInt.Exp x bigThree s256_P in
  let yTemp := yTemp + s256_B in
  let yTemp := BigInt.Mod yTemp s256_P in
  BigInt.Exp yTemp sqRootExp s256_P.

(** The malformed inputs of the three key decoders, in the specification's
    words: wrong length or wrong header byte (a nil slice has length 0). *)
Definition header_of (data : slice) : option byte :=
  match data with
  | Some (b :: _) => Some b
  | _ => None
  end.

Definition bad_serialized_public (data : slice) : Prop :=
  data = None \/ len data <> 65%nat \/ header_of data <> Some x04.

Definition bad_compressed_public (data : slice) : Prop :=
  data = None \/ len data <> 33%nat
  \/ (header_of data <> Some x02 /\ header_of data <> Some x03).

Definition bad_serialized_secret (data : slice) : Prop :=
  len data <> 33%nat \/ header_of data <> Some x08.

(** A model of the curve interface: the cyclic group of order [N] written
    additively, with generator 1; the point [k.G] is represented by the pair
    [(k mod N, 0)].  It serves to show that [CurveLaws] can be met. *)
Definition ZN_curve : Curve :=
  {| ScalarBaseMult := fun k => (BigInt.SetBytes k mod s256_N, 0);
     ScalarMult := fun x _ e => ((BigInt.SetBytes e * x) mod s256_N, 0);
     Add := fun x1 _ x2 _ => ((x1 + x2) mod s256_N, 0) |}.

(** A stand-in for the hash, used only to run the signing code on an
    example: the input read as an integer, plus one, raised to the power
    65537 modulo [P], in 32 bytes. *)
Definition model_hash (d : list byte) : list byte :=
  be_bytes 32 (powmod (BigInt.SetBytes d + 1) 65537 s256_P).

(** Scenario S1 of the specification, run on the model curve: the message
    "Sign me", the secret scalar 1, a fixed nonce. *)
Module SignExample.
Definition msg : list byte := [x53; x69; x67; x6e; x20; x6d; x65].
Definition nonce : list byte := repeat x2a 32.
Definition sec : ECSecret :=
  {| Public := ComputeECPublic (s256 := ZN_curve) [x01]; R := 1 |}.
End SignExample.

(** ** modules/renter/hostdb/hostdb.go *)

(** A buffered Go channel: its capacity and the values waiting in it, oldest
    first. *)
Record chan (A : Type) : Type := mkChan { chan_cap : nat; chan_buf : list A }.
Arguments mkChan {A} _ _.
Arguments chan_cap {A} _.
Arguments chan_buf {A} _.

(** [make(chan A, n)] *)
Definition make_chan {A : Type} (n : nat) : chan A :=
  {| chan_cap := n; chan_buf := [] |}.

(** [c <- v] proceeds only while the buffer has room; [None] is a sender
    that stays blocked. *)
Definition chan_send {A : Type} (c : chan A) (v : A) : option (chan A) :=
  if (length (chan_buf c) <? chan_cap c)%nat then
    Some {| chan_cap := chan_cap c; chan_buf := chan_buf c ++ [v] |}
  else None.

(** [select { case c <- v: ...; default: ... }]: the send, or nothing. *)
Definition chan_try_send {A : Type} (c : chan A) (v : A) : chan A * bool :=
  match chan_send c v with
  | Some c' => (c', true)
  | None => (c, false)
  end.

(** [<-c] proceeds only while the buffer is not empty. *)
Definition chan_recv {A : Type} (c : chan A) : option (A * chan A) :=
  match chan_buf c with
  | [] => None
  | v :: rest => Some (v, {| chan_cap := chan_cap c; chan_buf := rest |})
  end.

(** What goroutines can do to a channel, one operation at a time. *)
Inductive chan_step {A : Type} : chan A -> chan A -> Prop :=
  | step_send c v c' : chan_send c v = Some c' -> chan_step c c'
  | step_recv c v c' : chan_recv c = Some (v, c') -> chan_step c c'.

Inductive chan_reachable {A : Type} (c0 : chan A) : chan A -> Prop :=
  | reach_init : chan_reachable c0 c0
  | reach_step c c' : chan_reachable c0 c -> chan_step c c' -> chan_reachable c0 c'.

Definition scanPoolSize : nat := 1000.

(** Side effects are threaded through a state [World]: an action returns the
    new state and a value or an error. *)
Definition M (World A : Type) : Type := World -> World * result A.

Definition ret {World A : Type} (a : A) : M World A := fun w => (w, Ok a).

Definition fail {World A : Type} (e : error) : M World A := fun w => (w, Err e).

Definition bind {World A B : Type} (m : M World A) (k : A -> M World B)
    : M World B :=
  fun w =>
    match m w with
    | (w', Ok a) => k a w'
    | (w', Err e) => (w', Err e)
    end.

Notation "x <- m ;; k" := (bind m (fun x => k))
  (at level 61, m at next level, right associativity).

(** An effect that cannot fail. *)
Definition effect {World : Type} (f : World -> World) : M World unit :=
  fun w => (f w, Ok tt).

Fixpoint repeat_effect {World : Type} (n : nat) (f : World -> World)
    : M World unit :=
  match n with
  | O => ret tt
  | S n' => _ <- effect f ;; repeat_effect n' f
  end.

(** hostdb.go, with the dependencies of the HostDB behind interfaces. *)
Module HostDB.
Section HostDB.
Variables ConsensusSet WalletShim TransactionPool : Type.
Variables Dialer Sleeper Persister Logger : Type.
Variables hostNode hostEntry NetAddress FileContractID hostContract : Type.
Variables UnlockHash World : Type.

(** [hdbWalletBridge{w: wallet}] *)
Inductive hdbWallet : Type := hdbWalletBridge (w : WalletShim).

Record HostDB : Type := mkHostDB {
  wallet : hdbWallet;
  tpool : TransactionPool;
  dialer : Dialer;
  sleeper : Sleeper;
  persist : Persister;
  log : Logger;
  hostTree : option hostNode;
  activeHosts : list (NetAddress * hostNode);
  allHosts : list (NetAddress * hostEntry);
  scanPool : chan hostEntry;
  blockHeight : Z;
  contracts : list (FileContractID * hostContract);
  cachedAddress : option UnlockHash
}.

Definition newHostDB (w : hdbWallet) (tp : TransactionPool) (d : Dialer)
    (s : Sleeper) (p : Persister) (l : Logger) : HostDB :=
  {| wallet := w; tpool := tp; dialer := d; sleeper := s; persist := p; log := l;
     hostTree := None;
     contracts := [];
     activeHosts := [];
     allHosts := [];
     scanPool := make_chan scanPoolSize;
     blockHeight := 0;
     cachedAddress := None |}.

(** The parts of the package and of its environment declared outside the
    files at hand: the file system, the logger, the persister, loading,
    the background threads, the subscription. *)
Variable MkdirAll : String.string -> M World unit.
Variable newLogger : String.string -> M World Logger.
Variable newPersist : String.string -> Persister.
Variables (stdDialer : Dialer) (stdSleeper : Sleeper).
Variable load : HostDB -> World -> World * HostDB * option error.
Variable IsNotExist : error -> bool.
Variable scanningThreads : nat.
Variable go_threadedProbeHosts : HostDB -> World -> World.
Variable go_threadedScan : HostDB -> World -> World.
Variable ConsensusSetSubscribe : ConsensusSet -> HostDB -> World -> World.

(** [hdb.load()] may change the HostDB; an error other than "not exist" is
    returned. *)
Definition load_prior (hdb : HostDB) : M World HostDB :=
  fun w =>
    match load hdb w with
    | (w', hdb', Some err) =>
        if negb (IsNotExist err) then (w', Err err) else (w', Ok hdb')
    | (w', hdb', None) => (w', Ok hdb')
    end.

(** A nil interface value is [None]. *)
Definition New (cs : option ConsensusSet) (wallet : option WalletShim)
    (tpool : option TransactionPool) (persistDir : String.string)
    : M World HostDB :=
  match cs with
  | None => fail errNilCS
  | Some cs =>
  match wallet with
  | None => fail errNilWallet
  | Some wallet =>
  match tpool with
  | None => fail errNilTpool
  | Some tpool =>
      _ <- MkdirAll persistDir ;;
      logger <- newLogger persistDir ;;
      let hdb := newHostDB (hdbWalletBridge wallet) tpool stdDialer stdSleeper
                           (newPersist persistDir) logger in
      hdb <- load_prior hdb ;;
      _ <- repeat_effect scanningThreads (go_threadedProbeHosts hdb) ;;
      _ <- effect (go_threadedScan hdb) ;;
      _ <- effect (ConsensusSetSubscribe cs hdb) ;;
      ret hdb
  end end end.
End HostDB.
End HostDB.

Arguments HostDB.New {ConsensusSet WalletShim TransactionPool Dialer Sleeper
  Persister Logger hostNode hostEntry NetAddress FileContractID hostContract
  UnlockHash World} _ _ _ _ _ _ _ _ _ _ _ _ _ _ _ _.
Arguments HostDB.newHostDB {WalletShim TransactionPool Dialer Sleeper Persister
  Logger hostNode hostEntry NetAddress FileContractID hostContract UnlockHash}
  _ _ _ _ _ _.
Arguments HostDB.scanPool {WalletShim TransactionPool Dialer Sleeper Persister
  Logger hostNode hostEntry NetAddress FileContractID hostContract UnlockHash} _.

(** The other revision of hostdb.go among the sources: the HostDB keeps
    [persistDir] and a plain logger, and [newHostDB] returns an error. *)
Module HostDB0.
Section HostDB0.
Variables ConsensusSet Wallet TransactionPool Logger : Type.
Variables hostNode hostEntry NetAddress FileContractID hostContract : Type.
Variables UnlockHash World : Type.

(** [hdbWalletShim{w: wallet}] *)
Inductive hdbWalletShim : Type := mk_hdbWalletShim (w : Wallet).

Record HostDB : Type := mkHostDB {
  wallet : hdbWalletShim;
  tpool : TransactionPool;
  hostTree : option hostNode;
  activeHosts : list (NetAddress * hostNode);
  allHosts : list (NetAddress * hostEntry);
  scanPool : chan hostEntry;
  blockHeight : Z;
  contracts : list (FileContractID * hostContract);
  cachedAddress : option UnlockHash;
  persistDir : String.string;
  log : option Logger
}.

Definition newHostDB (wallet : hdbWalletShim) (tpool : TransactionPool)
    (persistDir : String.string) : result HostDB :=
  let hdb :=
    {| wallet := wallet; tpool := tpool;
       hostTree := None;
       contracts := [];
       activeHosts := [];
       allHosts := [];
       scanPool := make_chan scanPoolSize;
       blockHeight := 0;
       cachedAddress := None;
       persistDir := persistDir;
       log := None |} in
  Ok hdb.

Variable initPersist : HostDB -> World -> World * HostDB * option error.
Variable scanningThreads : nat.
Variable go_threadedProbeHosts : HostDB -> World -> World.
Variable go_threadedScan : HostDB -> World -> World.
Variable ConsensusSetSubscribe : ConsensusSet -> HostDB -> World -> World.

Definition init_persist (hdb : HostDB) : M World HostDB :=
  fun w =>
    match initPersist hdb w with
    | (w', hdb', Some err) => (w', Err err)
    | (w', hdb', None) => (w', Ok hdb')
    end.

Definition New (cs : option ConsensusSet) (wallet : option Wallet)
    (tpool : option TransactionPool) (persistDir : String.string)
    : M World HostDB :=
  match cs with
  | None => fail errNilCS
  | Some cs =>
  match wallet with
  | None => fail errNilWallet
  | Some wallet =>
  match tpool with
  | None => fail errNilTpool
  | Some tpool =>
      hdb <- (fun w => (w, newHostDB (mk_hdbWalletShim wallet) tpool persistDir)) ;;
      hdb <- init_persist hdb ;;
      _ <- repeat_effect scanningThreads (go_threadedProbeHosts hdb) ;;
      _ <- effect (go_threadedScan hdb) ;;
      _ <- effect (ConsensusSetSubscribe cs hdb) ;;
      ret hdb
  end end end.
End HostDB0.
End HostDB0.

Arguments HostDB0.New {ConsensusSet Wallet TransactionPool Logger hostNode
  hostEntry NetAddress FileContractID hostContract UnlockHash World}
  _ _ _ _ _ _ _ _ _ _.
Arguments HostDB0.newHostDB {Wallet TransactionPool Logger hostNode hostEntry
  NetAddress FileContractID hostContract UnlockHash} _ _ _.
Arguments HostDB0.scanPool {Wallet TransactionPool Logger hostNode hostEntry
  NetAddress FileContractID hostContract UnlockHash} _.

(** ** Further definitions *)

(** The bytes of a slice; a nil slice has none. *)
Definition elems (s : slice) : list byte :=
  match s with
  | None => []
  | Some bs => bs
  end.

(** The value a coordinate keeps through [Serialize]: its absolute value
    modulo [2^256]. *)
Definition wire_value (x : Z) : Z := Z.abs x mod 256 ^ 32.

(** The opposite point. *)
Definition negate (pub : ECPublic) : ECPublic :=
  {| X := X pub; Y := (s256_P - Y pub) mod s256_P |}.

(** The other compressed header. *)
Definition flip_header (h : byte) : byte :=
  if Byte.eqb h ECHeaderCompressedEven then ECHeaderCompressedOdd
  else ECHeaderCompressedEven.

(** A signature whose S is small, to run the verification on: on the model
    curve, the key with scalar 0 signs with S equal to the nonce, here 5. *)
Module SmallS.
Definition nonce : list byte := repeat x00 31 ++ [x05].
Definition sec : ECSecret :=
  {| Public := ComputeECPublic (s256 := ZN_curve) (repeat x00 32); R := 0 |}.
Definition sig : ECSchnorrSig :=
  {| SigE := challenge (s256 := ZN_curve) model_hash nonce SignExample.msg;
     SigS := nonce |}.
End SmallS.

(** ** modules/renter: renter.go and files.go *)

Module Renter.

(** Conversion to [uint64], and to [int] (64 bits, two's complement). *)
Definition uint64 (x : Z) : Z := x mod 2 ^ 64.
Definition int (x : Z) : Z := (x + 2 ^ 63) mod 2 ^ 64 - 2 ^ 63.

(** The error values the package handles: the two that files.go declares,
    and any other.  A callee may return any of them, and what it returns is
    handed on as it is. *)
Inductive renter_error : Type :=
  | ErrUnknownPath
  | ErrPathOverload
  | OtherError (e : error).

(** A Go map with string keys: the list of its entries, no key twice, in the
    order a [range] loop happens to visit them. *)
Definition lookup {V : Type} (k : String.string)
    (m : list (String.string * V)) : option V :=
  match find (fun kv => String.eqb (fst kv) k) m with
  | Some kv => Some (snd kv)
  | None => None
  end.

Definition delete {V : Type} (k : String.string)
    (m : list (String.string * V)) : list (String.string * V) :=
  filter (fun kv => negb (String.eqb (fst kv) k)) m.

Definition insert {V : Type} (k : String.string) (v : V)
    (m : list (String.string * V)) : list (String.string * V) :=
  (k, v) :: delete k m.

Record pieceData : Type := mkPieceData { Chunk : Z; Piece : Z; Offset : Z }.

Record trackedFile : Type := mkTrackedFile {
  RepairPath : String.string;
  EndHeight : Z;
  Renew : bool
}.

(** [chunkPieces[i]++] on a slice of [int]; an index past the end panics. *)
Definition incr_at (l : list Z) (i : Z) : option (list Z) :=
  if i <? Z.of_nat (length l) then
    let k := Z.to_nat i in
    Some (firstn k l ++ int (nth k l 0 + 1) :: skipn (S k) l)
  else None.

(** The inner loop of [available] over the pieces of one contract. *)
Definition count_pieces (ps : list pieceData) (acc : option (list Z))
    : option (list Z) :=
  fold_left (fun acc p =>
               match acc with
               | Some l => incr_at l (Chunk p)
               | None => None
               end) ps acc.

Section Renter.
Variables ConsensusSet Wallet TransactionPool HostDB Logger download Mutex : Type.
Variables FileContractID NetAddress TwofishKey ErasureCoder : Type.
Variable World : Type.

Record fileContract : Type := mkFileContract {
  ID : FileContractID;
  IP : NetAddress;
  Pieces : list pieceData;
  WindowStart : Z
}.

(** [contracts] is a map: its entries in iteration order. *)
Record file : Type := mkFile {
  name : String.string;
  size : Z;
  contracts : list (FileContractID * fileContract);
  masterKey : TwofishKey;
  erasureCode : ErasureCoder;
  pieceSize : Z;
  mode : Z
}.

(** renter.go (the revision that comes with the older hostdb.go).  A nil
    interface, pointer or slice is [None] or the empty list. *)
Record Renter : Type := mkRenter {
  cs : option ConsensusSet;
  wallet : option Wallet;
  hostDB : HostDB;
  log : option Logger;
  files : list (String.string * file);
  tracking : list (String.string * trackedFile);
  downloadQueue : list download;
  persistDir : String.string;
  mu : Mutex
}.

(** The method of the erasure coder that files.go calls here; it returns an
    [int]. *)
Variable MinPieces : ErasureCoder -> Z.

Definition chunkSize (f : file) : Z :=
  uint64 (pieceSize f * uint64 (MinPieces (erasureCode f))).

(** [None] is the run-time panic of an integer division by zero. *)
Definition numChunks (f : file) : option Z :=
  if size f =? 0 then Some 1
  else
    let c := chunkSize f in
    if c =? 0 then None
    else
      let n := size f / c in
      if negb (size f mod c =? 0) then Some (uint64 (n + 1)) else Some n.

(** Whether the run time can allocate a slice of that many [int]s: its
    limit is not in the files at hand. *)
Variable can_allocate : Z -> bool.

(** [make([]int, n)] for a [uint64] [n]: a run-time panic when [n] does not
    fit an [int], a failure as well when the run time cannot allocate the
    slice; otherwise [n] zeros. *)
Definition make_ints (n : Z) : option (list Z) :=
  if (n <? 2 ^ 63) && can_allocate n then Some (repeat 0 (Z.to_nat n))
  else None.

(** [None] is a failed run: a panic of [numChunks], of [make] or of an
    index out of range. *)
Definition available (f : file) : option bool :=
  match numChunks f with
  | None => None
  | Some n =>
      match make_ints n with
      | None => None
      | Some chunkPieces =>
          match fold_left (fun acc fc => count_pieces (Pieces (snd fc)) acc)
                          (contracts f) (Some chunkPieces) with
          | None => None
          | Some chunkPieces =>
              Some (forallb (fun n => negb (n <? MinPieces (erasureCode f)))
                            chunkPieces)
          end
      end
  end.

Definition expiration (f : file) : Z :=
  if (length (contracts f) =? 0)%nat then 0
  else
    fold_left (fun lowest fc =>
                 if WindowStart (snd fc) <? lowest then WindowStart (snd fc)
                 else lowest)
              (contracts f) (2 ^ 64 - 1).

(** For the statements about [available]: the pieces of all contracts, and
    how many of them belong to chunk [c]. *)
Definition all_pieces (f : file) : list pieceData :=
  flat_map (fun fc => Pieces (snd fc)) (contracts f).

Definition pieces_in_chunk (f : file) (c : Z) : Z :=
  Z.of_nat (length (filter (fun p => Chunk p =? c) (all_pieces f))).

(** The parts of the package and of its environment declared outside the
    files at hand.  [hostdb_New] is [hostdb.New]; [saveFile], [save] and
    [initPersist] are methods of the renter; the map of files is reached
    only through the renter. *)
Variable hostdb_New : option ConsensusSet -> option Wallet ->
  option TransactionPool -> String.string -> M World HostDB.
Variable sync_New : Mutex.
Variable initPersist : Renter -> World -> World * Renter * option error.
Variable go_threadedRepairLoop : Renter -> World -> World.
Variable saveFile : Renter -> file -> World -> World * option renter_error.
Variable save : Renter -> World -> World * option renter_error.
Variable RemoveAll : String.string -> World -> World * option renter_error.
Variable Join : String.string -> String.string -> String.string.
Variable ShareExtension : String.string.

Definition init_persist (r : Renter) : M World Renter :=
  fun w =>
    match initPersist r w with
    | (w', r', Some err) => (w', Err err)
    | (w', r', None) => (w', Ok r')
    end.

Definition New (cs : option ConsensusSet) (wallet : option Wallet)
    (tpool : option TransactionPool) (persistDir : String.string)
    : M World Renter :=
  hdb <- hostdb_New cs wallet tpool persistDir ;;
  let r := {| cs := cs; wallet := wallet; hostDB := hdb; log := None;
              files := []; tracking := []; downloadQueue := [];
              persistDir := persistDir; mu := sync_New |} in
  r <- init_persist r ;;
  _ <- effect (go_threadedRepairLoop r) ;;
  ret r.

(** Assignments to [r.files] and, through the pointer the map holds, to
    [file.name]. *)
Definition set_files (r : Renter) (fs : list (String.string * file)) : Renter :=
  {| cs := cs r; wallet := wallet r; hostDB := hostDB r; log := log r;
     files := fs; tracking := tracking r; downloadQueue := downloadQueue r;
     persistDir := persistDir r; mu := mu r |}.

Definition set_name (f : file) (n : String.string) : file :=
  {| name := n; size := size f; contracts := contracts f;
     masterKey := masterKey f; erasureCode := erasureCode f;
     pieceSize := pieceSize f; mode := mode f |}.

(** The renter's lock is held from the first to the last step, so a call is
    one transition of the renter and of the world. *)
Definition DeleteFile (r : Renter) (nickname : String.string)
    : World -> World * Renter * option renter_error :=
  fun w =>
    match lookup nickname (files r) with
    | None => (w, r, Some ErrUnknownPath)
    | Some f =>
        let r := set_files r (delete nickname (files r)) in
        match RemoveAll (Join (persistDir r) (String.append (name f) ShareExtension)) w with
        | (w, Some err) => (w, r, Some err)
        | (w, None) =>
            match save r w with
            | (w, e) => (w, r, e)
            end
        end
    end.

Definition RenameFile (r : Renter) (currentName newName : String.string)
    : World -> World * Renter * option renter_error :=
  fun w =>
    match lookup currentName (files r) with
    | None => (w, r, Some ErrUnknownPath)
    | Some file =>
        match lookup newName (files r) with
        | Some _ => (w, r, Some ErrPathOverload)
        | None =>
            let file := set_name file newName in
            let r := set_files r (insert currentName file (files r)) in
            match saveFile r file w with
            | (w, Some err) => (w, r, Some err)
            | (w, None) =>
                let r := set_files r (insert newName file
                                        (delete currentName (files r))) in
                match save r w with
                | (w, Some err) => (w, r, Some err)
                | (w, None) =>
                    let oldPath :=
                      Join (persistDir r) (String.append currentName ShareExtension) in
                    match RemoveAll oldPath w with
                    | (w, e) => (w, r, e)
                    end
                end
            end
        end
    end.
End Renter.

Arguments mkFileContract {FileContractID NetAddress} _ _ _ _.
Arguments ID {FileContractID NetAddress} _.
Arguments IP {FileContractID NetAddress} _.
Arguments Pieces {FileContractID NetAddress} _.
Arguments WindowStart {FileContractID NetAddress} _.
Arguments mkFile {FileContractID NetAddress TwofishKey ErasureCoder} _ _ _ _ _ _ _.
Arguments name {FileContractID NetAddress TwofishKey ErasureCoder} _.
Arguments size {FileContractID NetAddress TwofishKey ErasureCoder} _.
Arguments contracts {FileContractID NetAddress TwofishKey ErasureCoder} _.
Arguments masterKey {FileContractID NetAddress TwofishKey ErasureCoder} _.
Arguments erasureCode {FileContractID NetAddress TwofishKey ErasureCoder} _.
Arguments pieceSize {FileContractID NetAddress TwofishKey ErasureCoder} _.
Arguments mode {FileContractID NetAddress TwofishKey ErasureCoder} _.
Arguments mkRenter {ConsensusSet Wallet HostDB Logger download Mutex FileContractID NetAddress
  TwofishKey ErasureCoder} _ _ _ _ _ _ _ _ _.
Arguments cs {ConsensusSet Wallet HostDB Logger download Mutex FileContractID NetAddress
  TwofishKey ErasureCoder} _.
Arguments wallet {ConsensusSet Wallet HostDB Logger download Mutex FileContractID NetAddress
  TwofishKey ErasureCoder} _.
Arguments hostDB {ConsensusSet Wallet HostDB Logger download Mutex FileContractID NetAddress
  TwofishKey ErasureCoder} _.
Arguments log {ConsensusSet Wallet HostDB Logger download Mutex FileContractID NetAddress
  TwofishKey ErasureCoder} _.
Arguments files {ConsensusSet Wallet HostDB Logger download Mutex FileContractID NetAddress
  TwofishKey ErasureCoder} _.
Arguments tracking {ConsensusSet Wallet HostDB Logger download Mutex FileContractID NetAddress
  TwofishKey ErasureCoder} _.
Arguments downloadQueue {ConsensusSet Wallet HostDB Logger download Mutex FileContractID NetAddress
  TwofishKey ErasureCoder} _.
Arguments persistDir {ConsensusSet Wallet HostDB Logger download Mutex FileContractID NetAddress
  TwofishKey ErasureCoder} _.
Arguments mu {ConsensusSet Wallet HostDB Logger download Mutex FileContractID NetAddress
  TwofishKey ErasureCoder} _.
Arguments chunkSize {FileContractID NetAddress TwofishKey ErasureCoder} _ _.
Arguments numChunks {FileContractID NetAddress TwofishKey ErasureCoder} _ _.
Arguments available {FileContractID NetAddress TwofishKey ErasureCoder} _ _ _.
Arguments expiration {FileContractID NetAddress TwofishKey ErasureCoder} _.
Arguments all_pieces {FileContractID NetAddress TwofishKey ErasureCoder} _.
Arguments pieces_in_chunk {FileContractID NetAddress TwofishKey ErasureCoder} _ _.
Arguments set_name {FileContractID NetAddress TwofishKey ErasureCoder} _ _.
Arguments set_files {ConsensusSet Wallet HostDB Logger download Mutex FileContractID NetAddress
  TwofishKey ErasureCoder} _ _.
Arguments init_persist {ConsensusSet Wallet HostDB Logger download Mutex FileContractID NetAddress
  TwofishKey ErasureCoder World} _ _ _.
Arguments New {ConsensusSet Wallet TransactionPool HostDB Logger download Mutex
  FileContractID NetAddress TwofishKey ErasureCoder World} _ _ _ _ _ _ _ _ _.
Arguments DeleteFile {ConsensusSet Wallet HostDB Logger download Mutex FileContractID NetAddress
  TwofishKey ErasureCoder World} _ _ _ _ _ _ _.
Arguments RenameFile {ConsensusSet Wallet HostDB Logger download Mutex FileContractID NetAddress
  TwofishKey ErasureCoder World} _ _ _ _ _ _ _ _ _.
End Renter.

(** A small renter to run the code on: one file of 10 bytes in chunks of 8,
    two contracts holding two pieces of each chunk; the world is the list of
    the paths removed so far, saving the renter never fails, and slices of
    fewer than [2^45] counters can be allocated. *)
Module RenterExample.
Import Renter.
Import String.

Definition a : String.string := "a".
Definition b : String.string := "b".

Definition MinPieces (_ : unit) : Z := 2.

Definition can_allocate (n : Z) : bool := n <? 2 ^ 45.

Definition f0 : file nat unit unit unit :=
  mkFile a 10
    [(1%nat, mkFileContract 1%nat tt
               [mkPieceData 0 0 0; mkPieceData 1 0 4] 7);
     (2%nat, mkFileContract 2%nat tt
               [mkPieceData 0 1 0; mkPieceData 1 1 4] 5)]
    tt tt 4 0.

Definition r0 : Renter unit unit unit unit unit unit nat unit unit unit :=
  mkRenter None None tt None [(a, f0)] [] [] "dir" tt.

Definition World : Type := list String.string.

Definition saveFile (_ : Renter unit unit unit unit unit unit nat unit unit unit)
    (_ : file nat unit unit unit) (w : World) : World * option renter_error :=
  (w, None).

Definition saveFile_fails
    (_ : Renter unit unit unit unit unit unit nat unit unit unit)
    (_ : file nat unit unit unit) (w : World) : World * option renter_error :=
  (w, Some (OtherError (ErrOther "disk full"))).

Definition save (_ : Renter unit unit unit unit unit unit nat unit unit unit)
    (w : World) : World * option renter_error :=
  (w, None).

Definition RemoveAll (path : String.string) (w : World) : World * option renter_error :=
  (w ++ [path], None).

Definition Join (dir file : String.string) : String.string :=
  String.append dir (String.append "/" file).

Definition ShareExtension : String.string := ".sia".
End RenterExample.

(** * Proofs *)

(** ** Modular exponentiation *)

Lemma powmod_pos_spec x e m : powmod_pos x e m = x ^ Zpos e mod m.
Proof.
  induction e as [e IH | e IH |]; cbn [powmod_pos].
  - rewrite IH, Pos2Z.inj_xI.
    replace (2 * Z.pos e + 1) with (Z.pos e + Z.pos e + 1) by lia.
    rewrite !Z.pow_add_r, Z.pow_1_r by lia.
    rewrite <- Zmult_mod. apply Zmult_mod_idemp_l.
  - rewrite IH, Pos2Z.inj_xO.
    replace (2 * Z.pos e) with (Z.pos e + Z.pos e) by lia.
    rewrite Z.pow_add_r by lia.
    now rewrite <- Zmult_mod.
  - now rewrite Z.pow_1_r.
Qed.

Lemma powmod_spec x e m : 0 <= e -> powmod x e m = x ^ e mod m.
Proof.
  destruct e as [| p | p]; cbn [powmod]; intros He.
  - reflexivity.
  - apply powmod_pos_spec.
  - lia.
Qed.

(** ** Primality certificates (Pocklington's criterion)

    The field modulus of secp256k1 is prime; the decompression code relies
    on it when it takes a square root by exponentiation.  Primality is
    established from a chain of Pocklington certificates checked by
    computation. *)

Module Pocklington.
Import Cert.

Lemma prime_factor n : 1 < n -> exists p, Z.prime p /\ (p | n).
Proof.
  intros Hn. assert (H0 : 0 <= n) by lia. revert Hn.
  pattern n. apply Z_lt_induction; trivial.
  clear n H0. intros n IH Hn.
  destruct (prime_dec n) as [Hp | Hnp].
  - exists n. split; [now apply prime_alt | apply Z.divide_refl].
  - destruct (not_prime_divide n Hn Hnp) as (d & Hd & Hdn).
    destruct (IH d) as (p & Hp & Hpd); try lia.
    exists p. split; trivial. now apply Z.divide_trans with d.
Qed.

Lemma prime_le_of_divide p d : 0 < d -> (p | d) -> 0 < p -> p <= d.
Proof. intros Hd Hpd Hp. apply Z.divide_pos_le; trivial. Qed.

Lemma small_prime_factor n :
  1 < n -> ~ Z.prime n -> exists p, Z.prime p /\ (p | n) /\ p * p <= n.
Proof.
  intros Hn Hnp.
  assert (Hnp' : ~ prime n) by (now rewrite <- prime_alt).
  destruct (not_prime_divide n Hn Hnp') as (d & Hd & (c & Hc)).
  assert (Hcpos : 1 < c < n) by nia.
  destruct (Z_le_gt_dec d c) as [Hle | Hgt].
  - destruct (prime_factor d) as (p & Hp & Hpd); try lia.
    exists p. split; [trivial | split].
    + apply Z.divide_trans with d; trivial. exists c; lia.
    + pose proof (Z.prime_ge_2 p Hp).
      assert (p <= d) by (apply prime_le_of_divide; trivial; lia). nia.
  - destruct (prime_factor c) as (p & Hp & Hpc); try lia.
    exists p. split; [trivial | split].
    + apply Z.divide_trans with c; trivial. exists d; lia.
    + pose proof (Z.prime_ge_2 p Hp).
      assert (p <= c) by (apply prime_le_of_divide; trivial; lia). nia.
Qed.

(** In the unit group modulo a prime [p], an element killed by both [n - 1]
    and [p - 1] is killed by their gcd. *)
Lemma pow_gcd_one p (s : Zstar p) a b :
  Zstar.pow s a = Zstar.one -> Zstar.pow s b = Zstar.one ->
  Zstar.pow s (Z.gcd a b) = Zstar.one.
Proof.
  intros Ha Hb.
  destruct (Z.gcd_bezout a b (Z.gcd a b) eq_refl) as (u & v & Huv).
  rewrite <- Huv, Zstar.pow_add_r.
  rewrite (Z.mul_comm u a), (Z.mul_comm v b), !Zstar.pow_mul_r.
  now rewrite Ha, Hb, !Zstar.pow_1_l, Zstar.mul_1_l.
Qed.

Section PrimeDivisor.
Variables (n p a : Z).
Hypothesis Hp : Z.prime p.
Hypothesis Hpn : (p | n).
Hypothesis Hn : 1 < n.
Hypothesis Ha : a ^ (n - 1) mod n = 1.

Lemma mod_p_of_mod_n x : (x mod n) mod p = x mod p.
Proof.
  destruct Hpn as (c & Hc). pose proof (Z.prime_ge_2 p Hp).
  rewrite (Z.div_mod x n) at 2 by lia.
  rewrite Hc at 2.
  replace (c * p * (x / n) + x mod n) with (x mod n + (c * (x / n)) * p) by ring.
  now rewrite Z.mod_add by lia.
Qed.

Lemma residue_pow k : 0 <= k -> Zmod.pow (residue p a) k = Zmod.of_Z p (a ^ k mod n).
Proof.
  intros Hk. unfold residue. rewrite <- Zmod.of_Z_pow by trivial.
  apply Zmod.of_Z_inj. now rewrite mod_p_of_mod_n.
Qed.

Lemma residue_pow_pred : Zmod.pow (residue p a) (n - 1) = Zmod.one.
Proof. rewrite residue_pow by lia. now rewrite Ha, Zmod.of_Z_1. Qed.

Lemma residue_nonzero : (residue p a) <> Zmod.zero.
Proof.
  intros H0. pose proof residue_pow_pred as H1.
  rewrite H0, Zmod.pow_0_l in H1 by lia.
  apply (f_equal Zmod.to_Z) in H1.
  pose proof (Z.prime_ge_2 p Hp).
  rewrite Zmod.to_Z_0, Zmod.unsigned_1, Z.mod_1_l in H1 by lia. lia.
Qed.

Lemma residue_coprime : Z.coprime (Zmod.to_Z (residue p a)) p.
Proof.
  pose proof (Z.prime_ge_2 p Hp).
  pose proof (Zmod.unsigned_pos_bound (residue p a) ltac:(lia)).
  pose proof (Zmod.unsigned_nz (residue p a) residue_nonzero).
  unfold Z.coprime. rewrite Z.gcd_comm.
  apply Z.coprime_prime_small; trivial; lia.
Qed.

Lemma unit_pow k : Zstar.to_Zmod (Zstar.pow (unit_residue p a) k) = Zmod.pow (residue p a) k.
Proof.
  unfold unit_residue. rewrite Zstar.to_Zmod_pow, Zstar.to_Zmod_of_Zmod; trivial.
  apply residue_coprime.
Qed.

Lemma unit_pow_gcd : Zstar.pow (unit_residue p a) (Z.gcd (n - 1) (p - 1)) = Zstar.one.
Proof.
  apply pow_gcd_one.
  - apply Zstar.to_Zmod_inj. now rewrite unit_pow, residue_pow_pred, Zstar.to_Zmod_1.
  - replace (p - 1) with (Z.pred p) by lia. now apply Zstar.fermat.
Qed.

(** The heart of the criterion: a certified prime power of [n - 1]
    divides [p - 1]. *)
Lemma prime_power_divides q e :
  Z.prime q -> 0 <= e -> (q ^ e | n - 1) ->
  Z.gcd (a ^ ((n - 1) / q) mod n - 1) n = 1 ->
  (q ^ e | p - 1).
Proof.
  intros Hq He Hqe Hg.
  pose proof (Z.prime_ge_2 p Hp) as Hp2.
  pose proof (Z.prime_ge_2 q Hq) as Hq2.
  set (g := Z.gcd (n - 1) (p - 1)).
  destruct (Z.gcd_divide_l (n - 1) (p - 1)) as (t & Ht). fold g in Ht.
  assert (Hqt : ~ (q | t)).
  { intros (s & Hs).
    assert (Hdiv : (n - 1) / q = s * g).
    { rewrite Ht, Hs. replace (s * q * g) with (s * g * q) by ring.
      apply Z.div_mul; lia. }
    assert (Hsg : 0 <= s * g).
    { rewrite <- Hdiv. apply Z.div_pos; lia. }
    assert (H1 : Zstar.pow (unit_residue p a) (s * g) = Zstar.one).
    { rewrite Z.mul_comm, Zstar.pow_mul_r.
      unfold g. now rewrite unit_pow_gcd, Zstar.pow_1_l. }
    apply (f_equal Zstar.to_Zmod) in H1.
    rewrite unit_pow, Zstar.to_Zmod_1, residue_pow, <- Hdiv in H1 by trivial.
    rewrite <- Zmod.of_Z_1 in H1. apply Zmod.of_Z_inj in H1.
    rewrite Z.mod_1_l in H1 by lia.
    assert (Hpx : (p | a ^ ((n - 1) / q) mod n - 1)).
    { apply Z.mod_divide; try lia.
      rewrite Zminus_mod, H1, Z.mod_1_l by lia. reflexivity. }
    assert (Hp1 : (p | 1)).
    { rewrite <- Hg. now apply Z.gcd_greatest. }
    apply Z.divide_1_r_nonneg in Hp1; lia. }
  assert (Hcop : Z.gcd (q ^ e) t = 1).
  { apply Z.coprime_pow_l; trivial. now apply Z.coprime_prime_l. }
  assert (Hqg : (q ^ e | g)).
  { apply Z.gauss with t; trivial. now rewrite <- Ht. }
  apply Z.divide_trans with g; trivial. apply Z.gcd_divide_r.
Qed.
End PrimeDivisor.

Lemma coprime_mul_divide a b c :
  Z.gcd a b = 1 -> (a | c) -> (b | c) -> (a * b | c).
Proof.
  intros Hg (k & Hk) Hb. subst c.
  assert (Hbk : (b | k)).
  { apply Z.gauss with a; [now rewrite Z.mul_comm | now rewrite Z.gcd_comm]. }
  destruct Hbk as (j & Hj). exists j. subst k. ring.
Qed.

Lemma In_divide_prod_pp qe qs : In qe qs -> (fst qe ^ snd qe | prod_pp qs).
Proof.
  induction qs as [| x r IH]; cbn [In prod_pp fold_right]; intros Hin.
  - contradiction.
  - destruct Hin as [-> | Hin].
    + apply Z.divide_factor_l.
    + apply Z.divide_mul_r. now apply IH.
Qed.

Lemma prod_pp_divides qs m :
  pairwise_coprime qs = true ->
  (forall qe, In qe qs -> (fst qe ^ snd qe | m)) ->
  (prod_pp qs | m).
Proof.
  induction qs as [| x r IH]; cbn [pairwise_coprime prod_pp fold_right]; intros Hc Hall.
  - apply Z.divide_1_l.
  - apply andb_true_iff in Hc. destruct Hc as (Hg & Hc).
    apply Z.eqb_eq in Hg.
    apply coprime_mul_divide; trivial.
    + apply Hall. now left.
    + apply IH; trivial. intros qe Hin. apply Hall. now right.
Qed.

Theorem check_entry_sound known c :
  Forall Z.prime known -> check_entry known c = true -> Z.prime (cert_n c).
Proof.
  destruct c as ((n & a) & qs). cbn [cert_n fst]. intros Hknown Hc.
  unfold check_entry in Hc.
  repeat (apply andb_true_iff in Hc; destruct Hc as (Hc & ?)).
  match goal with H : pairwise_coprime _ = true |- _ => rename H into Hpc end.
  match goal with H : forallb _ _ = true |- _ => rename H into Hfa end.
  match goal with H : (powmod _ _ _ =? 1) = true |- _ => rename H into Hpow end.
  match goal with H : (n <=? _) = true |- _ => rename H into Hsq end.
  match goal with H : (_ mod _ =? 0) = true |- _ => rename H into Hdiv end.
  match goal with H : (0 <? _) = true |- _ => rename H into HF end.
  apply Z.ltb_lt in Hc, HF. apply Z.eqb_eq in Hpow, Hdiv. apply Z.leb_le in Hsq.
  rewrite powmod_spec in Hpow by lia.
  apply Z.mod_divide in Hdiv; [| lia].
  rewrite forallb_forall in Hfa.
  destruct (prime_dec n) as [Hp | Hnp]; [now apply prime_alt |].
  exfalso. rewrite <- prime_alt in Hnp.
  destruct (small_prime_factor n Hc Hnp) as (p & Hp & Hpn & Hpp).
  pose proof (Z.prime_ge_2 p Hp) as Hp2.
  assert (HFp : (prod_pp qs | p - 1)).
  { apply prod_pp_divides; trivial. intros qe Hin.
    specialize (Hfa qe Hin). unfold check_factor in Hfa.
    apply andb_true_iff in Hfa. destruct Hfa as (Hfa & Hg).
    apply andb_true_iff in Hfa. destruct Hfa as (Hk & He).
    apply Z.eqb_eq in Hg. apply Z.leb_le in He.
    apply existsb_exists in Hk. destruct Hk as (q & Hq & Heq).
    apply Z.eqb_eq in Heq. subst q.
    rewrite Forall_forall in Hknown. specialize (Hknown _ Hq).
    pose proof (Z.prime_ge_2 _ Hknown).
    rewrite powmod_spec in Hg by (apply Z.div_pos; lia).
    apply (prime_power_divides n p a Hp Hpn Hc Hpow); trivial.
    apply Z.divide_trans with (prod_pp qs); trivial.
    now apply In_divide_prod_pp. }
  apply Z.divide_pos_le in HFp; nia.
Qed.

Theorem check_chain_sound cs : forall known,
  Forall Z.prime known -> check_chain known cs = true ->
  Forall Z.prime (map cert_n cs).
Proof.
  induction cs as [| c r IH]; cbn [check_chain map]; intros known Hk Hc.
  - constructor.
  - apply andb_true_iff in Hc. destruct Hc as (Hc & Hr).
    pose proof (check_entry_sound known c Hk Hc) as Hp.
    constructor; trivial.
    apply (IH (cert_n c :: known)); trivial. now constructor.
Qed.

Lemma secp256k1_chain_ok : check_chain [2] secp256k1_chain = true.
Proof. vm_compute. reflexivity. Qed.

Theorem secp256k1_field_prime : Z.prime (2 ^ 256 - 2 ^ 32 - 977).
Proof.
  pose proof (check_chain_sound secp256k1_chain [2]
                (Forall_cons _ Z.prime_2 (Forall_nil _)) secp256k1_chain_ok) as H.
  rewrite Forall_forall in H. apply H.
  apply in_map_iff.
  exists (115792089237316195423570985008687907853269984665640564039457584007908834671663, 2,
      [(205115282021455665897114700593932402728804164701536103180137503955397371, 1)]).
  split; [vm_compute; reflexivity |].
  unfold secp256k1_chain. repeat (first [now left | right]).
Qed.

End Pocklington.


(** ** Bytes and big-endian integers *)

Lemma Z_of_byte_range b : 0 <= Z_of_byte b < 256.
Proof.
  unfold Z_of_byte. pose proof (Byte.to_N_bounded b). lia.
Qed.

Lemma Z_of_byte_of_Z z : Z_of_byte (byte_of_Z z) = z mod 256.
Proof.
  unfold byte_of_Z, Z_of_byte.
  pose proof (Z.mod_pos_bound z 256 eq_refl) as Hr.
  destruct (Byte.of_N (Z.to_N (z mod 256))) as [b |] eqn:Hb.
  - apply Byte.to_of_N in Hb. rewrite Hb. lia.
  - apply Byte.of_N_None_iff in Hb. lia.
Qed.

Lemma byte_of_Z_of_byte b : byte_of_Z (Z_of_byte b) = b.
Proof.
  unfold byte_of_Z. rewrite Z.mod_small by apply Z_of_byte_range.
  unfold Z_of_byte. now rewrite N2Z.id, Byte.of_to_N.
Qed.

Lemma Z_of_byte_inj a b : Z_of_byte a = Z_of_byte b -> a = b.
Proof.
  intros H. rewrite <- (byte_of_Z_of_byte a), <- (byte_of_Z_of_byte b). now rewrite H.
Qed.

Lemma byte_eqb_eq a b : Byte.eqb a b = true <-> a = b.
Proof.
  split; [apply Byte.byte_dec_bl | apply Byte.byte_dec_lb].
Qed.

Lemma byte_eqb_neq a b : Byte.eqb a b = false <-> a <> b.
Proof.
  split.
  - apply Byte.eqb_false.
  - intros Hn. destruct (Byte.eqb a b) eqn:E; trivial.
    apply byte_eqb_eq in E. contradiction.
Qed.

Module BigIntFacts.
Import BigInt.

Lemma fold_SetBytes l : forall acc,
  fold_left (fun acc b => acc * 256 + Z_of_byte b) l acc
  = acc * 256 ^ Z.of_nat (length l) + SetBytes l.
Proof.
  unfold SetBytes.
  induction l as [| b l IH]; intros acc; cbn [fold_left length].
  - rewrite Z.pow_0_r. lia.
  - rewrite IH, (IH (0 * 256 + Z_of_byte b)).
    rewrite Nat2Z.inj_succ, Z.pow_succ_r by lia. ring.
Qed.

Lemma SetBytes_nil : SetBytes [] = 0.
Proof. reflexivity. Qed.

Lemma SetBytes_cons b l :
  SetBytes (b :: l) = Z_of_byte b * 256 ^ Z.of_nat (length l) + SetBytes l.
Proof.
  unfold SetBytes at 1. cbn [fold_left]. rewrite fold_SetBytes. ring.
Qed.

Lemma SetBytes_app a b :
  SetBytes (a ++ b) = SetBytes a * 256 ^ Z.of_nat (length b) + SetBytes b.
Proof.
  unfold SetBytes at 1. rewrite fold_left_app, fold_SetBytes. reflexivity.
Qed.

Lemma SetBytes_snoc l b : SetBytes (l ++ [b]) = SetBytes l * 256 + Z_of_byte b.
Proof.
  rewrite SetBytes_app. cbn [length]. rewrite SetBytes_cons, SetBytes_nil.
  cbn [length]. change (256 ^ Z.of_nat 1) with 256. rewrite Z.pow_0_r. ring.
Qed.

Lemma SetBytes_range l : 0 <= SetBytes l < 256 ^ Z.of_nat (length l).
Proof.
  induction l as [| b l IH].
  - cbn. lia.
  - rewrite SetBytes_cons. cbn [length].
    rewrite Nat2Z.inj_succ, Z.pow_succ_r by lia.
    pose proof (Z_of_byte_range b). nia.
Qed.

Lemma SetBytes_zeros n l : SetBytes (repeat x00 n ++ l) = SetBytes l.
Proof.
  induction n as [| n IH]; cbn [repeat app]; trivial.
Qed.

Lemma SetBytes_inj a : forall b,
  length a = length b -> SetBytes a = SetBytes b -> a = b.
Proof.
  induction a as [| x a IH]; intros [| y b] Hlen Heq; try discriminate; trivial.
  cbn [length] in Hlen. injection Hlen as Hlen.
  rewrite !SetBytes_cons, <- Hlen in Heq.
  pose proof (SetBytes_range a) as Ha. pose proof (SetBytes_range b) as Hb.
  rewrite <- Hlen in Hb.
  pose proof (Z_of_byte_range x). pose proof (Z_of_byte_range y).
  assert (Hxy : Z_of_byte x = Z_of_byte y) by nia.
  f_equal.
  - now apply Z_of_byte_inj.
  - apply IH; trivial. rewrite Hxy in Heq. lia.
Qed.

Lemma be_digits_spec fuel : forall z,
  0 <= z < 256 ^ Z.of_nat fuel ->
  SetBytes (be_digits fuel z) = z
  /\ (forall n, z < 256 ^ Z.of_nat n -> (length (be_digits fuel z) <= n)%nat)
  /\ (z <> 0 -> exists l, be_digits fuel z = l ++ [byte_of_Z z]).
Proof.
  induction fuel as [| f IH]; intros z Hz.
  - cbn in Hz. assert (z = 0) by lia. subst z. cbn.
    repeat split; trivial; [lia | congruence].
  - cbn [be_digits]. destruct (Z.eqb_spec z 0) as [-> | Hnz].
    + cbn. repeat split; trivial; [lia | congruence].
    + rewrite Nat2Z.inj_succ, Z.pow_succ_r in Hz by lia.
      assert (Hq : 0 <= z / 256 < 256 ^ Z.of_nat f).
      { split; [apply Z.div_pos; lia | apply Z.div_lt_upper_bound; lia]. }
      destruct (IH _ Hq) as (Hv & Hl & _).
      repeat split.
      * rewrite SetBytes_snoc, Hv, Z_of_byte_of_Z.
        pose proof (Z.div_mod z 256). lia.
      * intros n Hn. rewrite length_app. cbn [length].
        destruct n as [| n]; [cbn in Hn; lia |].
        rewrite Nat2Z.inj_succ, Z.pow_succ_r in Hn by lia.
        assert (length (be_digits f (z / 256)) <= n)%nat; [| lia].
        apply Hl. apply Z.div_lt_upper_bound; lia.
      * intros _. now exists (be_digits f (z / 256)).
Qed.

Lemma Bytes_fuel x : 0 <= Z.abs x < 256 ^ Z.of_nat (S (Z.to_nat (Z.log2 (Z.abs x)))).
Proof.
  split; [lia |].
  rewrite Nat2Z.inj_succ, Z2Nat.id by apply Z.log2_nonneg.
  destruct (Z.eq_dec (Z.abs x) 0) as [-> | Hnz].
  - cbn. lia.
  - pose proof (Z.log2_spec (Z.abs x) ltac:(lia)) as (_ & Hlt).
    eapply Z.lt_le_trans; [exact Hlt |].
    change 256 with (2 ^ 8). rewrite <- Z.pow_mul_r by (pose proof (Z.log2_nonneg (Z.abs x)); lia).
    apply Z.pow_le_mono_r; pose proof (Z.log2_nonneg (Z.abs x)); lia.
Qed.

Lemma SetBytes_Bytes x : SetBytes (Bytes x) = Z.abs x.
Proof. unfold Bytes. apply be_digits_spec, Bytes_fuel. Qed.

Lemma Bytes_length_le x n :
  Z.abs x < 256 ^ Z.of_nat n -> (length (Bytes x) <= n)%nat.
Proof. unfold Bytes. apply be_digits_spec, Bytes_fuel. Qed.

Lemma Bytes_last x :
  x <> 0 -> exists l, Bytes x = l ++ [byte_of_Z (Z.abs x)].
Proof.
  intros Hx. unfold Bytes. apply be_digits_spec; [apply Bytes_fuel | lia].
Qed.

Lemma Bytes_0 : Bytes 0 = [].
Proof. reflexivity. Qed.

End BigIntFacts.

(** ** Slices, [copy] and [pad] *)

Lemma make_length n : length (make n) = n.
Proof. apply repeat_length. Qed.

Lemma firstn_repeat_le (b : byte) k : forall n,
  (k <= n)%nat -> firstn k (repeat b n) = repeat b k.
Proof.
  induction k as [| k IH]; intros [| n] Hle; cbn [firstn repeat]; trivial; try lia.
  f_equal. apply IH. lia.
Qed.

Lemma copy_tail n bs :
  (length bs <= n)%nat ->
  copy (make n) (n - length bs) n bs = repeat x00 (n - length bs) ++ bs.
Proof.
  intros Hle. unfold copy, make.
  replace (n - (n - length bs))%nat with (length bs) by lia.
  rewrite Nat.min_id, firstn_all.
  replace (n - length bs + length bs)%nat with n by lia.
  rewrite skipn_all2 by (rewrite repeat_length; lia).
  rewrite app_nil_r. f_equal.
  apply firstn_repeat_le. lia.
Qed.

Lemma skipn_repeat (b : byte) k : forall n,
  skipn k (repeat b n) = repeat b (n - k).
Proof.
  induction k as [| k IH]; intros [| n]; cbn [skipn repeat Nat.sub]; trivial.
Qed.

(** The concatenation idiom of ecschnorr.go: allocate, then copy twice. *)
Lemma copy_concat (a b : list byte) :
  let buf := make (length a + length b) in
  let buf := copy buf 0 (length a) a in
  copy buf (length a) (length buf) b = a ++ b.
Proof.
  cbv zeta.
  assert (H1 : copy (make (length a + length b)) 0 (length a) a
               = a ++ repeat x00 (length b)).
  { unfold copy, make. rewrite Nat.sub_0_r, Nat.min_id, firstn_all. cbn [firstn app].
    rewrite Nat.add_0_l, skipn_repeat. do 2 f_equal. lia. }
  rewrite H1. unfold copy.
  rewrite length_app, repeat_length.
  replace (length a + length b - length a)%nat with (length b) by lia.
  rewrite Nat.min_id, firstn_all.
  rewrite firstn_app, firstn_all, Nat.sub_diag. cbn [firstn].
  rewrite app_nil_r.
  rewrite skipn_all2 by (rewrite length_app, repeat_length; lia).
  now rewrite app_nil_r.
Qed.

Lemma pad_length s n : length (pad s n) = n.
Proof.
  destruct s as [bs |]; cbn [pad]; [| apply make_length].
  destruct (Nat.leb_spec n (length bs)) as [Hle | Hlt].
  - unfold sub. rewrite length_firstn, length_skipn. lia.
  - rewrite copy_tail by lia. rewrite length_app, repeat_length. lia.
Qed.

Lemma pad_short bs n :
  (length bs <= n)%nat -> pad (Some bs) n = repeat x00 (n - length bs) ++ bs.
Proof.
  intros Hle. cbn [pad].
  destruct (Nat.leb_spec n (length bs)) as [Hge | Hlt].
  - assert (length bs = n) as Heq by lia.
    unfold sub. rewrite Heq, Nat.sub_diag. cbn [skipn repeat app].
    rewrite <- Heq, Nat.sub_0_r. apply firstn_all.
  - apply copy_tail. lia.
Qed.

Lemma SetBytes_pad_Bytes x n :
  0 <= x < 256 ^ Z.of_nat n ->
  BigInt.SetBytes (pad (Some (BigInt.Bytes x)) n) = x.
Proof.
  intros Hx. rewrite pad_short.
  - rewrite BigIntFacts.SetBytes_zeros, BigIntFacts.SetBytes_Bytes. lia.
  - apply BigIntFacts.Bytes_length_le. lia.
Qed.

(** ** crypto/eckey.go: the uncompressed encoding *)

Lemma be_bytes_length n x : length (be_bytes n x) = n.
Proof. unfold be_bytes. now rewrite length_map, length_seq. Qed.

Lemma be_bytes_succ n x :
  be_bytes (S n) x = byte_of_Z (x / 256 ^ Z.of_nat n) :: be_bytes n x.
Proof.
  unfold be_bytes. cbn [seq map]. f_equal.
  - do 3 f_equal. lia.
  - rewrite <- seq_shift, map_map. apply map_ext. intros i. do 4 f_equal. lia.
Qed.

Lemma SetBytes_be_bytes n x :
  BigInt.SetBytes (be_bytes n x) = x mod 256 ^ Z.of_nat n.
Proof.
  induction n as [| n IH].
  - cbn. now rewrite Z.mod_1_r.
  - rewrite be_bytes_succ, BigIntFacts.SetBytes_cons, IH, be_bytes_length.
    rewrite Z_of_byte_of_Z, Nat2Z.inj_succ, Z.pow_succ_r by lia.
    rewrite (Z.mul_comm 256), Z.rem_mul_r by lia. ring.
Qed.

Lemma pad_Bytes_be_bytes x n :
  0 <= x < 256 ^ Z.of_nat n ->
  pad (Some (BigInt.Bytes x)) n = be_bytes n x.
Proof.
  intros Hx. apply BigIntFacts.SetBytes_inj.
  - now rewrite pad_length, be_bytes_length.
  - rewrite SetBytes_pad_Bytes, SetBytes_be_bytes by trivial.
    now rewrite Z.mod_small.
Qed.

Lemma Serialize_shape pub :
  Serialize pub
  = ECHeaderUncompressed
      :: pad (Some (BigInt.Bytes (X pub))) 32 ++ pad (Some (BigInt.Bytes (Y pub))) 32.
Proof. unfold Serialize, ECCoordinateSize. now rewrite <- app_assoc. Qed.

Lemma Serialize_length pub : length (Serialize pub) = 65%nat.
Proof.
  rewrite Serialize_shape. cbn [length]. now rewrite length_app, !pad_length.
Qed.

Lemma sub_middle (h : byte) (a b : list byte) n :
  n = (1 + length a)%nat -> sub (h :: a ++ b) 1 n = a.
Proof.
  intros ->. unfold sub. cbn [skipn].
  replace (1 + length a - 1)%nat with (length a) by lia.
  rewrite firstn_app, firstn_all, Nat.sub_diag. cbn [firstn]. apply app_nil_r.
Qed.

Lemma sub_tail (h : byte) (a b : list byte) n m :
  n = (1 + length a)%nat -> m = (1 + length a + length b)%nat ->
  sub (h :: a ++ b) n m = b.
Proof.
  intros -> ->. unfold sub. cbn [skipn Nat.add].
  rewrite skipn_app, skipn_all, Nat.sub_diag. cbn [skipn app].
  replace (S (length a + length b) - S (length a))%nat with (length b) by lia.
  apply firstn_all.
Qed.

Lemma firstn_after (h : byte) (a b : list byte) :
  firstn (length a) (skipn 1 (h :: a ++ b)) = a.
Proof.
  cbn [skipn]. rewrite firstn_app, firstn_all, Nat.sub_diag. cbn [firstn].
  apply app_nil_r.
Qed.

Lemma skipn_after (h : byte) (a b : list byte) :
  skipn (S (length a)) (h :: a ++ b) = b.
Proof.
  cbn [skipn]. rewrite skipn_app, skipn_all, Nat.sub_diag. reflexivity.
Qed.

(** [TestPadECCoordinateSize]: the padding cases of the package's tests. *)
Example TestPadECCoordinateSize :
  pad None 32 = make 32
  /\ pad (Some []) 32 = make 32
  /\ pad (Some [x01]) 32 = repeat x00 31 ++ [x01]
  /\ pad (Some (x01 :: repeat x00 30 ++ [x01])) 32
     = x01 :: repeat x00 30 ++ [x01]
  /\ pad (Some ([x01; x01; x01] ++ repeat x00 30 ++ [x01])) 32
     = x01 :: repeat x00 30 ++ [x01].
Proof. repeat split; reflexivity. Qed.

(** C5.  For every public point whose coordinates fit in 32 bytes (as
    unsigned integers), [Serialize] produces exactly 65 bytes: the header
    0x04, then the 32-byte big-endian X and the 32-byte big-endian Y, each
    left-padded with zero bytes.  In particular the coordinate value 1 is
    serialized as 31 zero bytes followed by 0x01. *)
Theorem Serialize_format pub :
  0 <= X pub < 256 ^ 32 -> 0 <= Y pub < 256 ^ 32 ->
  length (Serialize pub) = 65%nat
  /\ Serialize pub = Serialize_spec pub
  /\ (X pub = 1 -> firstn 32 (skipn 1 (Serialize pub)) = repeat x00 31 ++ [x01])
  /\ (Y pub = 1 -> skipn 33 (Serialize pub) = repeat x00 31 ++ [x01]).
Proof.
  intros HX HY.
  assert (HS : Serialize pub = Serialize_spec pub).
  { rewrite Serialize_shape. unfold Serialize_spec.
    now rewrite !pad_Bytes_be_bytes. }
  split; [apply Serialize_length |].
  split; [exact HS |].
  rewrite HS. unfold Serialize_spec.
  split; intros ->.
  - rewrite <- (be_bytes_length 32 1) at 1. rewrite firstn_after.
    vm_compute. reflexivity.
  - rewrite <- (be_bytes_length 32 (X pub)) at 1. rewrite skipn_after.
    vm_compute. reflexivity.
Qed.

Lemma Serialize_format_witness :
  let pub := {| X := 1; Y := 1 |} in
  length (Serialize pub) = 65%nat
  /\ Serialize pub = Serialize_spec pub
  /\ (X pub = 1 -> firstn 32 (skipn 1 (Serialize pub)) = repeat x00 31 ++ [x01])
  /\ (Y pub = 1 -> skipn 33 (Serialize pub) = repeat x00 31 ++ [x01]).
Proof.
  apply (Serialize_format {| X := 1; Y := 1 |}); cbn [X Y]; lia.
Defined.

(** C4.  For every point whose X and Y each fit in 32 bytes (as unsigned
    integers; in particular every point on the curve),
    [DeserializeECPublic (Serialize P)] succeeds and returns [P]. *)
Theorem Deserialize_Serialize pub :
  0 <= X pub < 256 ^ 32 -> 0 <= Y pub < 256 ^ 32 ->
  DeserializeECPublic (Some (Serialize pub)) = Ok pub.
Proof.
  intros HX HY. unfold DeserializeECPublic.
  rewrite Serialize_length. cbn [Nat.eqb negb ECCoordinateSize Nat.add Nat.mul].
  rewrite Serialize_shape.
  set (px := pad (Some (BigInt.Bytes (X pub))) 32).
  set (py := pad (Some (BigInt.Bytes (Y pub))) 32).
  assert (Hpx : length px = 32%nat) by apply pad_length.
  assert (Hpy : length py = 32%nat) by apply pad_length.
  unfold ECHeaderUncompressed.
  replace (Byte.eqb x04 x04) with true by reflexivity. cbn [negb].
  rewrite sub_middle by (now rewrite Hpx).
  rewrite sub_tail by (now rewrite Hpx, ?Hpy).
  unfold px, py. rewrite !SetBytes_pad_Bytes by (change (Z.of_nat 32) with 32; lia).
  now destruct pub.
Qed.

Lemma Deserialize_Serialize_witness :
  DeserializeECPublic (Some (Serialize TestCases.G)) = Ok TestCases.G.
Proof.
  apply Deserialize_Serialize; cbn [X Y TestCases.G]; lia.
Defined.

Lemma on_curve_fits pub :
  on_curve pub -> 0 <= X pub < 256 ^ 32 /\ 0 <= Y pub < 256 ^ 32.
Proof.
  intros (HX & HY & _).
  assert (s256_P < 256 ^ 32) by (vm_compute; reflexivity). lia.
Qed.

(** ** What the encodings keep of an integer *)

Lemma SetBytes_firstn_skipn (bs : list byte) k :
  BigInt.SetBytes bs
  = BigInt.SetBytes (firstn k bs) * 256 ^ Z.of_nat (length (skipn k bs))
    + BigInt.SetBytes (skipn k bs).
Proof.
  rewrite <- BigIntFacts.SetBytes_app. now rewrite firstn_skipn.
Qed.

Lemma pad_long bs n :
  (n <= length bs)%nat -> pad (Some bs) n = skipn (length bs - n) bs.
Proof.
  intros Hle. cbn [pad].
  destruct (Nat.leb_spec n (length bs)) as [_ | Hlt]; [| lia].
  unfold sub.
  replace (length bs - (length bs - n))%nat
    with (length (skipn (length bs - n) bs)) by (rewrite length_skipn; lia).
  apply firstn_all.
Qed.

Lemma SetBytes_pad s n :
  BigInt.SetBytes (pad s n) = BigInt.SetBytes (elems s) mod 256 ^ Z.of_nat n.
Proof.
  assert (Hpos : 0 < 256 ^ Z.of_nat n) by (apply Z.pow_pos_nonneg; lia).
  destruct s as [bs |]; cbn [elems].
  - destruct (Nat.le_gt_cases n (length bs)) as [Hle | Hlt].
    + rewrite pad_long by trivial.
      rewrite (SetBytes_firstn_skipn bs (length bs - n)).
      pose proof (BigIntFacts.SetBytes_range (skipn (length bs - n) bs)) as Hr.
      assert (Hl : length (skipn (length bs - n) bs) = n)
        by (rewrite length_skipn; lia).
      rewrite Hl in *. rewrite Z.add_comm, Z.mod_add by lia.
      now rewrite Z.mod_small.
    + rewrite pad_short by lia. rewrite BigIntFacts.SetBytes_zeros.
      pose proof (BigIntFacts.SetBytes_range bs) as Hr.
      rewrite Z.mod_small; trivial. split; [lia |].
      eapply Z.lt_le_trans; [apply Hr |].
      apply Z.pow_le_mono_r; lia.
  - cbn [pad]. unfold make.
    rewrite <- (app_nil_r (repeat x00 n)), BigIntFacts.SetBytes_zeros.
    rewrite BigIntFacts.SetBytes_nil. symmetry. apply Z.mod_0_l. lia.
Qed.

Lemma be_bytes_SetBytes (bs : list byte) :
  be_bytes (length bs) (BigInt.SetBytes bs) = bs.
Proof.
  apply BigIntFacts.SetBytes_inj.
  - apply be_bytes_length.
  - rewrite SetBytes_be_bytes. apply Z.mod_small, BigIntFacts.SetBytes_range.
Qed.

Lemma pad_Bytes_SetBytes (bs : list byte) :
  pad (Some (BigInt.Bytes (BigInt.SetBytes bs))) (length bs) = bs.
Proof.
  rewrite pad_Bytes_be_bytes by apply BigIntFacts.SetBytes_range.
  apply be_bytes_SetBytes.
Qed.

Lemma pad_Bytes_wire x :
  pad (Some (BigInt.Bytes x)) 32 = be_bytes 32 (wire_value x).
Proof.
  apply BigIntFacts.SetBytes_inj.
  - now rewrite pad_length, be_bytes_length.
  - rewrite SetBytes_pad, SetBytes_be_bytes. cbn [elems].
    rewrite BigIntFacts.SetBytes_Bytes. unfold wire_value.
    change (Z.of_nat 32) with 32. now rewrite Z.mod_mod by lia.
Qed.



(** ** The field of secp256k1 *)

Lemma s256_P_prime : Z.prime s256_P.
Proof. exact Pocklington.secp256k1_field_prime. Qed.

Lemma s256_P_bounds : 2 < s256_P < 256 ^ 32.
Proof. split; vm_compute; reflexivity. Qed.

Lemma s256_P_odd : s256_P mod 2 = 1.
Proof. vm_compute. reflexivity. Qed.

Lemma sqRootExp_pos : 0 < sqRootExp.
Proof. vm_compute. reflexivity. Qed.

(** The exponent is [(P + 1) / 4], as its comment in the source says. *)
Lemma sqRootExp_spec : sqRootExp * 4 = s256_P + 1.
Proof. vm_compute. reflexivity. Qed.

Lemma Exp_spec x y m : 0 < y -> 0 < m -> BigInt.Exp x y m = x ^ y mod m.
Proof.
  intros Hy Hm. unfold BigInt.Exp. destruct y as [| e | e]; try lia.
  destruct (Z.eqb_spec m 0); [lia |].
  rewrite Z.abs_eq by lia. apply powmod_pos_spec.
Qed.

Lemma Mod_spec x m : 0 < m -> BigInt.Mod x m = x mod m.
Proof. intros Hm. unfold BigInt.Mod. now rewrite Z.abs_eq by lia. Qed.

Section Field.
Lemma pow_P_succ (a : Zmod s256_P) : Zmod.pow a (s256_P + 1) = Zmod.mul a a.
Proof.
  pose proof s256_P_bounds.
  rewrite Z.add_1_r, Zmod.pow_succ_nonneg_r by lia.
  now rewrite (Zmod.fermat a s256_P_prime).
Qed.

(** The fourth power of the square-root candidate [t ^ sqRootExp] is
    [t * t]. *)
Lemma candidate_pow_4 (t : Zmod s256_P) :
  Zmod.pow (Zmod.pow t sqRootExp) 4 = Zmod.mul t t.
Proof.
  pose proof sqRootExp_pos.
  rewrite <- Zmod.pow_mul_r_nonneg by lia.
  rewrite sqRootExp_spec. apply pow_P_succ.
Qed.

Lemma candidate_nonzero (t : Zmod s256_P) :
  t <> Zmod.zero -> Zmod.pow t sqRootExp <> Zmod.zero.
Proof.
  intros Ht Hw. pose proof (candidate_pow_4 t) as H4.
  rewrite Hw, Zmod.pow_0_l in H4 by lia.
  symmetry in H4. apply (Zmod.mul_0_iff_prime s256_P_prime) in H4. tauto.
Qed.

(** When [t] is a square [y * y], the candidate is [y] or [-y]. *)
Lemma candidate_of_square (y : Zmod s256_P) :
  let w := Zmod.pow (Zmod.mul y y) sqRootExp in
  w = y \/ w = Zmod.opp y.
Proof.
  cbv zeta. pose proof sqRootExp_pos.
  apply (Zmod.square_roots_opp_prime s256_P_prime).
  rewrite <- (Zmod.pow_2_r y).
  rewrite <- !Zmod.pow_mul_r_nonneg by lia.
  replace (2 * sqRootExp * 2) with (s256_P + 1) by (rewrite <- sqRootExp_spec; ring).
  rewrite pow_P_succ. now rewrite Zmod.pow_2_r.
Qed.

(** [-7] is not a cube modulo [P]: the curve has no point with [Y = 0]. *)
Lemma cube_plus_B_nonzero x : (x ^ 3 + s256_B) mod s256_P <> 0.
Proof.
  intros H0. pose proof s256_P_bounds as HP.
  set (a := Zmod.of_Z s256_P x).
  assert (Ha3 : Zmod.pow a 3 = Zmod.of_Z s256_P (- s256_B)).
  { unfold a. rewrite <- Zmod.of_Z_pow by lia. apply Zmod.of_Z_inj.
    replace (x ^ 3) with ((x ^ 3 + s256_B) + - s256_B) by ring.
    rewrite Zplus_mod, H0, Z.add_0_l, Z.mod_mod by lia. reflexivity. }
  assert (Hnz : a <> Zmod.zero).
  { intros E. rewrite E, Zmod.pow_0_l in Ha3 by lia.
    apply (f_equal Zmod.to_Z) in Ha3.
    rewrite Zmod.unsigned_0, Zmod.unsigned_of_Z in Ha3.
    revert Ha3. vm_compute. discriminate. }
  pose proof (Zmod.fermat_nz a Hnz s256_P_prime) as Hf.
  replace (Z.pred s256_P) with (3 * ((s256_P - 1) / 3)) in Hf
    by (vm_compute; reflexivity).
  rewrite Zmod.pow_mul_r_nonneg in Hf by (try lia; vm_compute; discriminate).
  rewrite Ha3 in Hf. apply (f_equal Zmod.to_Z) in Hf.
  rewrite Zmod.unsigned_pow_nonneg_r in Hf by (vm_compute; discriminate).
  rewrite Zmod.unsigned_of_Z, Zmod.unsigned_1 in Hf.
  rewrite Z.mod_pow_l in Hf.
  rewrite <- powmod_spec in Hf by (vm_compute; discriminate).
  revert Hf. vm_compute. discriminate.
Qed.
End Field.

(** ** crypto/eckey.go: parity and compression *)

Lemma index_last (l : list byte) b :
  index (l ++ [b]) (Z.of_nat (length (l ++ [b])) - 1) = Some b.
Proof.
  unfold index. rewrite length_app. cbn [length].
  destruct (Z.ltb_spec (Z.of_nat (length l + 1) - 1) 0); [lia |].
  replace (Z.to_nat (Z.of_nat (length l + 1) - 1)) with (length l) by lia.
  rewrite nth_error_app2, Nat.sub_diag by lia. reflexivity.
Qed.

Lemma bigIntParity_zero : bigIntParity 0 = None.
Proof. reflexivity. Qed.

Lemma bigIntParity_nonzero i :
  i <> 0 -> bigIntParity i = Some (Z.abs i mod 2).
Proof.
  intros Hi. unfold bigIntParity.
  destruct (BigIntFacts.Bytes_last i Hi) as (l & Hl).
  rewrite Hl, index_last, Z_of_byte_of_Z. f_equal.
  change 256 with (2 * 128).
  rewrite Z.rem_mul_r, Z.mul_comm, Z.mod_add by lia.
  apply Z.mod_mod. lia.
Qed.

Lemma bigIntParity_None i : bigIntParity i = None <-> i = 0.
Proof.
  split.
  - intros H. destruct (Z.eq_dec i 0) as [| Hn]; trivial.
    rewrite bigIntParity_nonzero in H by trivial. discriminate.
  - intros ->. apply bigIntParity_zero.
Qed.

Lemma Compress_zero_Y x : Compress {| X := x; Y := 0 |} = None.
Proof. reflexivity. Qed.

Lemma Compress_nonzero pub :
  Y pub <> 0 ->
  Compress pub
  = Some ((if Z.abs (Y pub) mod 2 =? 0 then ECHeaderCompressedEven
           else ECHeaderCompressedOdd)
          :: pad (Some (BigInt.Bytes (X pub))) ECCoordinateSize).
Proof.
  intros HY. unfold Compress. now rewrite bigIntParity_nonzero.
Qed.

Lemma candidate_Zmod x :
  0 <= candidate x < s256_P
  /\ Zmod.of_Z s256_P (candidate x)
     = Zmod.pow (Zmod.of_Z s256_P (x ^ 3 + s256_B)) sqRootExp.
Proof.
  pose proof s256_P_bounds as HP. pose proof sqRootExp_pos as He.
  unfold candidate, bigThree.
  rewrite !Exp_spec, Mod_spec by lia.
  split; [apply Z.mod_pos_bound; lia |].
  rewrite Zmod.of_Z_mod, Zmod.of_Z_pow, Zmod.of_Z_mod by lia.
  f_equal. apply Zmod.of_Z_inj.
  now rewrite Zplus_mod_idemp_l.
Qed.

Lemma candidate_nonzero_Z x : candidate x <> 0.
Proof.
  destruct (candidate_Zmod x) as (_ & Hc). intros H0.
  rewrite H0, Zmod.of_Z_0 in Hc. symmetry in Hc. revert Hc.
  apply candidate_nonzero. intros E.
  apply (f_equal Zmod.to_Z) in E.
  rewrite Zmod.unsigned_0, Zmod.unsigned_of_Z in E.
  now apply cube_plus_B_nonzero in E.
Qed.

Lemma candidate_on_curve pub :
  on_curve pub -> candidate (X pub) = Y pub \/ candidate (X pub) = s256_P - Y pub.
Proof.
  intros (HX & HY & Hc). pose proof s256_P_bounds as HP.
  destruct (candidate_Zmod (X pub)) as (Hr & Hz).
  set (y := Zmod.of_Z s256_P (Y pub)).
  assert (Ht : Zmod.of_Z s256_P (X pub ^ 3 + s256_B) = Zmod.mul y y).
  { unfold y. rewrite <- Zmod.of_Z_mul. apply Zmod.of_Z_inj. now rewrite Hc. }
  rewrite Ht in Hz.
  destruct (candidate_of_square y) as [Hw | Hw]; rewrite Hw in Hz;
    apply (f_equal Zmod.to_Z) in Hz;
    rewrite Zmod.unsigned_of_Z, Z.mod_small in Hz by lia.
  - left. unfold y in Hz. rewrite Zmod.unsigned_of_Z, Z.mod_small in Hz by lia.
    exact Hz.
  - unfold y in Hz. rewrite Zmod.unsigned_opp, Zmod.unsigned_of_Z in Hz.
    rewrite (Z.mod_small (Y pub)) in Hz by lia.
    destruct (Z.eq_dec (Y pub) 0) as [E0 | Hn0].
    + left. rewrite E0 in Hz |- *. exact Hz.
    + right. rewrite Hz.
      replace (- Y pub) with (s256_P - Y pub + (-1) * s256_P) by ring.
      rewrite Z.mod_add, Z.mod_small by lia. reflexivity.
Qed.

(** A point of the curve has a nonzero ordinate. *)
Lemma on_curve_Y_nonzero pub : on_curve pub -> Y pub <> 0.
Proof.
  intros (HX & HY & Hc) H0. rewrite H0 in Hc.
  symmetry in Hc. revert Hc. rewrite Z.mul_0_l, Z.mod_0_l.
  - apply cube_plus_B_nonzero.
  - pose proof s256_P_bounds. lia.
Qed.

Lemma candidate_unfold x :
  BigInt.Exp (BigInt.Mod (BigInt.Exp x bigThree s256_P + s256_B) s256_P)
    sqRootExp s256_P = candidate x.
Proof. unfold candidate. reflexivity. Qed.

Lemma Uncompress_well_formed header (xs : list byte) :
  length xs = 32%nat ->
  header = ECHeaderCompressedEven \/ header = ECHeaderCompressedOdd ->
  UncompressECPublic (Some (header :: xs))
  = let x := BigInt.SetBytes xs in
    let yTemp := candidate x in
    Some (Ok {| X := x;
                Y := if negb (Z.lxor (yTemp mod 2) (Z_of_byte header mod 2) =? 0)
                     then BigInt.Mod (s256_P - yTemp) s256_P else yTemp |}).
Proof.
  intros Hlen Hh. unfold UncompressECPublic. cbn [length].
  rewrite Hlen. cbn [Nat.eqb negb ECCoordinateSize Nat.add].
  assert (Hhd : negb (Byte.eqb header ECHeaderCompressedEven)
                && negb (Byte.eqb header ECHeaderCompressedOdd) = false).
  { destruct Hh as [-> | ->]; reflexivity. }
  rewrite Hhd.
  assert (Hsub : sub (header :: xs) 1 33 = xs).
  { rewrite <- (app_nil_r xs) at 1. apply sub_middle. now rewrite Hlen. }
  rewrite Hsub, !candidate_unfold.
  pose proof (candidate_nonzero_Z (BigInt.SetBytes xs)) as Hnz.
  destruct (candidate_Zmod (BigInt.SetBytes xs)) as (Hr & _).
  rewrite bigIntParity_nonzero by trivial.
  rewrite Z.abs_eq by lia. reflexivity.
Qed.

Lemma parity_header y :
  Z_of_byte (if Z.even y then x02 else x03) mod 2 = y mod 2.
Proof.
  rewrite (Zmod_even y). destruct (Z.even y); reflexivity.
Qed.

Lemma parity_opposite y : (s256_P - y) mod 2 = 1 - y mod 2.
Proof.
  rewrite Zminus_mod, s256_P_odd.
  pose proof (Z.mod_pos_bound y 2 eq_refl) as Hb.
  assert (y mod 2 = 0 \/ y mod 2 = 1) as [-> | ->] by lia; reflexivity.
Qed.

(** C3.  For every point of the secp256k1 curve with nonzero Y, [Compress]
    yields exactly 33 bytes: 0x02 when Y is even and 0x03 when Y is odd,
    followed by the 32-byte big-endian X; and [UncompressECPublic] of these
    bytes returns the same point (same X, same Y). *)
Theorem Compress_Uncompress pub :
  on_curve pub -> Y pub <> 0 ->
  exists data,
    Compress pub = Some data
    /\ length data = 33%nat
    /\ data = Compress_spec pub
    /\ UncompressECPublic (Some data) = Some (Ok pub).
Proof.
  intros Hon HY0.
  pose proof s256_P_bounds as HP.
  pose proof (candidate_on_curve pub Hon) as Hcand.
  destruct Hon as (HX & HY & Hc).
  exists (Compress_spec pub).
  assert (Hpad : pad (Some (BigInt.Bytes (X pub))) ECCoordinateSize
                 = be_bytes 32 (X pub)).
  { apply pad_Bytes_be_bytes. change (Z.of_nat ECCoordinateSize) with 32. lia. }
  assert (Hcomp : Compress pub = Some (Compress_spec pub)).
  { rewrite Compress_nonzero by trivial. rewrite Hpad. unfold Compress_spec.
    rewrite Z.abs_eq by lia. rewrite (Zmod_even (Y pub)).
    destruct (Z.even (Y pub)); reflexivity. }
  split; [exact Hcomp |].
  split; [unfold Compress_spec; cbn [length]; now rewrite be_bytes_length |].
  split; [reflexivity |].
  unfold Compress_spec.
  rewrite Uncompress_well_formed;
    [| apply be_bytes_length | destruct (Z.even (Y pub)); [now left | now right]].
  cbv zeta.
  rewrite SetBytes_be_bytes, Z.mod_small by (change (Z.of_nat 32) with 32; lia).
  rewrite parity_header.
  destruct Hcand as [E | E]; rewrite E.
  - rewrite Z.lxor_nilpotent. cbn [Z.eqb negb]. now destruct pub.
  - rewrite parity_opposite.
    pose proof (Z.mod_pos_bound (Y pub) 2 eq_refl) as Hb.
    assert (Hl : negb (Z.lxor (1 - Y pub mod 2) (Y pub mod 2) =? 0) = true).
    { assert (Y pub mod 2 = 0 \/ Y pub mod 2 = 1) as [-> | ->] by lia; reflexivity. }
    rewrite Hl, Mod_spec by lia.
    replace (s256_P - (s256_P - Y pub)) with (Y pub) by ring.
    rewrite Z.mod_small by lia. now destruct pub.
Qed.

Lemma G_on_curve : on_curve TestCases.G.
Proof.
  unfold on_curve. cbn [X Y TestCases.G].
  repeat split; vm_compute; congruence.
Qed.

Lemma Compress_Uncompress_witness :
  exists data,
    Compress TestCases.G = Some data
    /\ length data = 33%nat
    /\ data = Compress_spec TestCases.G
    /\ UncompressECPublic (Some data) = Some (Ok TestCases.G).
Proof.
  apply (Compress_Uncompress TestCases.G).
  - exact G_on_curve.
  - vm_compute. discriminate.
Defined.

(** Scenario S2 and [TestCompressionPublic]: known-answer points survive
    compression, and the generator compresses to 0x02 || X. *)
Example TestCompressionPublic :
  forallb (fun pub =>
    match Compress pub with
    | Some data =>
        match UncompressECPublic (Some data) with
        | Some (Ok pub2) => (X pub =? X pub2) && (Y pub =? Y pub2)
        | _ => false
        end
    | None => false
    end) [TestCases.G; TestCases.Gm1] = true
  /\ Compress TestCases.G = Some (x02 :: be_bytes 32 (X TestCases.G)).
Proof. split; vm_compute; reflexivity. Qed.

(** ** The decoders' error behaviour *)

Lemma slice_33_inv (bs : list byte) :
  length bs = 33%nat -> exists h xs, bs = h :: xs /\ length xs = 32%nat.
Proof.
  destruct bs as [| h xs]; cbn [length]; intros H; [discriminate |].
  exists h, xs. split; [reflexivity | lia].
Qed.

Lemma Uncompress_cases data :
  (bad_compressed_public data
   /\ UncompressECPublic data = Some (Err ErrInvalidCompressedPublic))
  \/ (~ bad_compressed_public data
      /\ exists pub, UncompressECPublic data = Some (Ok pub)).
Proof.
  destruct data as [bs |]; [| left; split; [now left | reflexivity]].
  destruct (Nat.eq_dec (length bs) 33) as [Hlen | Hlen].
  - destruct (slice_33_inv bs Hlen) as (h & xs & -> & Hxs).
    destruct (Byte.byte_eq_dec h x02) as [H2 | H2];
      [| destruct (Byte.byte_eq_dec h x03) as [H3 | H3]].
    + right. split.
      * intros [Hb | [Hb | (Hb & _)]]; [discriminate | contradiction |].
        apply Hb. cbn. now rewrite H2.
      * rewrite Uncompress_well_formed by (trivial; now left). eauto.
    + right. split.
      * intros [Hb | [Hb | (_ & Hb)]]; [discriminate | contradiction |].
        apply Hb. cbn. now rewrite H3.
      * rewrite Uncompress_well_formed by (trivial; now right). eauto.
    + left. split.
      * right. right. cbn. split; congruence.
      * unfold UncompressECPublic. rewrite Hlen. cbn [Nat.eqb negb ECCoordinateSize Nat.add].
        apply byte_eqb_neq in H2, H3.
        unfold ECHeaderCompressedEven, ECHeaderCompressedOdd.
        now rewrite H2, H3.
  - left. split; [right; now left |].
    unfold UncompressECPublic.
    apply Nat.eqb_neq in Hlen. unfold ECCoordinateSize.
    change (1 + 32)%nat with 33%nat. now rewrite Hlen.
Qed.

(** [UncompressECPublic] returns on every input. *)
Lemma Uncompress_total data : UncompressECPublic data <> None.
Proof.
  destruct (Uncompress_cases data) as [(_ & H) | (_ & pub & H)];
    rewrite H; discriminate.
Qed.

Lemma Deserialize_cases data :
  (bad_serialized_public data
   /\ DeserializeECPublic data = Err ErrInvalidSerializedPublic)
  \/ (~ bad_serialized_public data
      /\ exists pub, DeserializeECPublic data = Ok pub).
Proof.
  destruct data as [bs |]; [| left; split; [now left | reflexivity]].
  unfold DeserializeECPublic.
  destruct (Nat.eq_dec (length bs) 65) as [Hlen | Hlen].
  - rewrite Hlen. cbn [Nat.eqb negb ECCoordinateSize Nat.add Nat.mul].
    destruct bs as [| h xs]; [discriminate |].
    unfold ECHeaderUncompressed.
    destruct (Byte.byte_eq_dec h x04) as [H4 | H4].
    + right. split.
      * intros [Hb | [Hb | Hb]]; [discriminate | contradiction |].
        apply Hb. cbn. now rewrite H4.
      * rewrite H4. replace (Byte.eqb x04 x04) with true by reflexivity.
        cbn [negb]. eauto.
    + left. split.
      * right. right. cbn. congruence.
      * apply byte_eqb_neq in H4. now rewrite H4.
  - left. split; [right; now left |].
    apply Nat.eqb_neq in Hlen. unfold ECCoordinateSize.
    change (1 + 2 * 32)%nat with 65%nat. now rewrite Hlen.
Qed.

Lemma DeserializeSecret_cases {s256 : Curve} data :
  (bad_serialized_secret data
   /\ DeserializeECSecret data = Err ErrInvalidSerializedSecret)
  \/ (~ bad_serialized_secret data
      /\ exists bs, data = Some bs
         /\ DeserializeECSecret data
            = Ok {| Public := ComputeECPublic (sub bs 1 (length bs));
                    R := BigInt.SetBytes (sub bs 1 (length bs)) |}).
Proof.
  unfold DeserializeECSecret.
  destruct (Nat.eq_dec (len data) 33) as [Hlen | Hlen].
  - rewrite Hlen. cbn [Nat.eqb negb ECCoordinateSize Nat.add].
    destruct data as [[| h xs] |]; try discriminate.
    unfold ECHeaderSerializedSecret.
    destruct (Byte.byte_eq_dec h x08) as [H8 | H8].
    + right. split.
      * intros [Hb | Hb]; [contradiction |]. apply Hb. cbn. now rewrite H8.
      * exists (h :: xs). split; trivial.
        rewrite H8. replace (Byte.eqb x08 x08) with true by reflexivity.
        reflexivity.
    + left. split.
      * right. cbn. congruence.
      * apply byte_eqb_neq in H8. now rewrite H8.
  - left. split; [now left |].
    apply Nat.eqb_neq in Hlen. unfold ECCoordinateSize.
    change (1 + 32)%nat with 33%nat. now rewrite Hlen.
Qed.

(** C7.  Each key decoder fails with its invalid-encoding error exactly on
    the inputs of wrong length or wrong header byte, and succeeds on every
    other input; no decoder checks that the decoded point is on the curve. *)
Theorem decoders_error_iff {s256 : Curve} :
  (forall data,
     (DeserializeECPublic data = Err ErrInvalidSerializedPublic
      <-> bad_serialized_public data)
     /\ (~ bad_serialized_public data ->
         exists pub, DeserializeECPublic data = Ok pub))
  /\ (forall data,
     (UncompressECPublic data = Some (Err ErrInvalidCompressedPublic)
      <-> bad_compressed_public data)
     /\ (~ bad_compressed_public data ->
         exists pub, UncompressECPublic data = Some (Ok pub)))
  /\ (forall data,
     (DeserializeECSecret data = Err ErrInvalidSerializedSecret
      <-> bad_serialized_secret data)
     /\ (~ bad_serialized_secret data ->
         exists bs, data = Some bs
           /\ DeserializeECSecret data
              = Ok {| Public := ComputeECPublic (sub bs 1 (length bs));
                      R := BigInt.SetBytes (sub bs 1 (length bs)) |}))
  /\ (exists data pub, DeserializeECPublic data = Ok pub /\ ~ on_curve pub)
  /\ (exists data pub,
        UncompressECPublic data = Some (Ok pub) /\ ~ on_curve pub).
Proof.
  split; [| split; [| split; [| split]]].
  - intros data. destruct (Deserialize_cases data) as [(Hb & He) | (Hb & pub & He)].
    + split; [tauto | contradiction].
    + split; [| eauto]. rewrite He. split; [discriminate | contradiction].
  - intros data. destruct (Uncompress_cases data) as [(Hb & He) | (Hb & pub & He)].
    + split; [tauto | contradiction].
    + split; [| eauto]. rewrite He. split; [discriminate | contradiction].
  - intros data.
    destruct (DeserializeSecret_cases data) as [(Hb & He) | (Hb & bs & Hd & He)].
    + split; [tauto | contradiction].
    + split; [| eauto]. rewrite He. split; [discriminate | contradiction].
  - exists (Some (x04 :: repeat x00 64)), {| X := 0; Y := 0 |}.
    split; [vm_compute; reflexivity |].
    intros (_ & _ & Hc). revert Hc. vm_compute. discriminate.
  - exists (Some (x02 :: repeat x00 32)),
      {| X := 0;
         Y := 64828261740814840065360381756190772627110652128289340260788836867053167272156 |}.
    split; [vm_compute; reflexivity |].
    intros (_ & _ & Hc). revert Hc. vm_compute. discriminate.
Qed.

(** C10, as stated, fails on the code: [x^3 + B] is never 0 modulo [P], and
    there is no input on which [UncompressECPublic] panics. *)
Lemma Uncompress_never_panics :
  (forall x, (x ^ 3 + s256_B) mod s256_P <> 0)
  /\ ~ (exists data, UncompressECPublic data = None).
Proof.
  split; [exact cube_plus_B_nonzero |].
  intros (data & H). now apply (Uncompress_total data).
Qed.

(** C10, amended.  [Compress] is not total: [bigIntParity] indexes the last
    byte of [Bytes()], which is empty exactly for zero, so [Compress] panics
    exactly on the points whose Y is zero.  [UncompressECPublic] would panic
    in the same way if [x^3 + B] were 0 modulo [P]; no [x] has that property
    on secp256k1, and [UncompressECPublic] returns on every input. *)
Theorem Compress_partial_Uncompress_total :
  (forall i, bigIntParity i = None <-> i = 0)
  /\ (forall pub, Compress pub = None <-> Y pub = 0)
  /\ (forall x, candidate x = 0 <-> (x ^ 3 + s256_B) mod s256_P = 0)
  /\ (forall x, (x ^ 3 + s256_B) mod s256_P <> 0)
  /\ (forall data, UncompressECPublic data <> None).
Proof.
  split; [exact bigIntParity_None |].
  split; [| split; [| split]].
  - intros pub. unfold Compress.
    destruct (bigIntParity (Y pub)) as [p |] eqn:E.
    + split; [discriminate |]. intros H0. apply bigIntParity_None in H0. congruence.
    + split; trivial. intros _. now apply bigIntParity_None.
  - intros x. split; intros H.
    + now apply candidate_nonzero_Z in H.
    + now apply cube_plus_B_nonzero in H.
  - exact cube_plus_B_nonzero.
  - exact Uncompress_total.
Qed.

(** ** crypto/subtle *)

Module SubtleFacts.
Import Subtle.

Lemma lt_256_log2 a : 0 <= a -> (a < 256 <-> Z.log2 a < 8).
Proof.
  intros Ha. destruct (Z.eq_dec a 0) as [-> | Hn].
  - cbn. lia.
  - change 256 with (2 ^ 8). apply Z.log2_lt_pow2. lia.
Qed.

Lemma lor_byte a b : 0 <= a < 256 -> 0 <= b < 256 -> 0 <= Z.lor a b < 256.
Proof.
  intros Ha Hb.
  assert (H0 : 0 <= Z.lor a b) by (apply Z.lor_nonneg; lia).
  split; trivial. apply lt_256_log2; trivial.
  rewrite Z.log2_lor by lia.
  apply Z.max_lub_lt; apply lt_256_log2; lia.
Qed.

Lemma lxor_byte a b : 0 <= a < 256 -> 0 <= b < 256 -> 0 <= Z.lxor a b < 256.
Proof.
  intros Ha Hb.
  assert (H0 : 0 <= Z.lxor a b) by (apply Z.lxor_nonneg; lia).
  split; trivial. apply lt_256_log2; trivial.
  eapply Z.le_lt_trans; [apply Z.log2_lxor; lia |].
  apply Z.max_lub_lt; apply lt_256_log2; lia.
Qed.

Lemma ConstantTimeByteEq_zero v :
  0 <= v < 256 -> ConstantTimeByteEq v 0 = if v =? 0 then 1 else 0.
Proof.
  intros Hv. unfold ConstantTimeByteEq.
  rewrite Z.lxor_0_r, Z.shiftr_div_pow2 by lia.
  destruct (Z.eqb_spec v 0) as [-> | Hn].
  - reflexivity.
  - rewrite (Z.mod_small (v - 1)) by lia. apply Z.div_small. lia.
Qed.

Lemma fold_xor_into l : forall v,
  0 <= v < 256 ->
  0 <= fold_left xor_into l v < 256
  /\ (fold_left xor_into l v = 0 <-> v = 0 /\ Forall (fun xy => fst xy = snd xy) l).
Proof.
  induction l as [| xy l IH]; intros v Hv; cbn [fold_left].
  - split; trivial. split; [intros ->; now split | tauto].
  - pose proof (Z_of_byte_range (fst xy)). pose proof (Z_of_byte_range (snd xy)).
    assert (Hs : 0 <= xor_into v xy < 256).
    { unfold xor_into. apply lor_byte; trivial. now apply lxor_byte. }
    destruct (IH _ Hs) as (Hr & Hiff). split; trivial.
    rewrite Hiff. unfold xor_into. rewrite Z.lor_eq_0_iff.
    split.
    + intros ((Hv0 & Hx) & Hall). split; trivial. constructor; trivial.
      apply Z.lxor_eq in Hx. now apply Z_of_byte_inj.
    + intros (Hv0 & Hall). inversion Hall as [| ? ? Hxy Hall']; subst.
      repeat split; trivial. rewrite Hxy. apply Z.lxor_nilpotent.
Qed.

Lemma combine_same (x : list byte) : forall y,
  length x = length y ->
  (Forall (fun xy => fst xy = snd xy) (combine x y) <-> x = y).
Proof.
  induction x as [| a x IH]; intros [| b y] Hlen; try discriminate; cbn [combine].
  - split; trivial.
  - cbn [length] in Hlen. injection Hlen as Hlen. split.
    + intros H. inversion H as [| ? ? Hab Hall]; subst. cbn in Hab. subst b.
      f_equal. now apply IH.
    + intros E. injection E as -> ->. constructor; [reflexivity |].
      now apply IH.
Qed.

Lemma combine_fst_snd {A B : Type} (a : list A) : forall (b : list B),
  length a = length b ->
  map fst (combine a b) = a /\ map snd (combine a b) = b.
Proof.
  induction a as [| u a IH]; intros [| v b] Hlen; try discriminate;
    cbn [combine map fst snd].
  - now split.
  - cbn [length] in Hlen. injection Hlen as Hlen.
    destruct (IH b Hlen) as (-> & ->). now split.
Qed.

Lemma loop_step_fold l : forall st,
  fst (fold_left loop_step l st) = fold_left xor_into (map snd l) (fst st)
  /\ snd (fold_left loop_step l st)
     = snd st ++ flat_map (fun i => [Branch true; Index i]) (map fst l).
Proof.
  induction l as [| ixy l IH]; intros st; cbn [fold_left map flat_map].
  - now rewrite app_nil_r.
  - destruct (IH (loop_step st ixy)) as (-> & ->).
    unfold loop_step. cbn [fst snd]. now rewrite <- app_assoc.
Qed.

(** The value returned, without the trace. *)
Lemma ConstantTimeCompare_plain x y :
  ConstantTimeCompare x y
  = if negb (length x =? length y)%nat then 0
    else ConstantTimeByteEq (fold_left xor_into (combine x y) 0) 0.
Proof.
  unfold ConstantTimeCompare, ConstantTimeCompare_run.
  destruct (Nat.eqb_spec (length x) (length y)) as [Hlen | Hlen]; cbn [negb];
    [| reflexivity].
  cbv zeta. cbn [fst].
  destruct (loop_step_fold (combine (seq 0 (length x)) (combine x y))
              (0, [Branch false])) as (-> & _).
  cbn [fst].
  destruct (combine_fst_snd (seq 0 (length x)) (combine x y)) as (_ & ->);
    [| reflexivity].
  rewrite length_seq, length_combine. lia.
Qed.



Theorem ConstantTimeCompare_spec x y :
  (ConstantTimeCompare x y = 1 <-> x = y)
  /\ (ConstantTimeCompare x y = 0 \/ ConstantTimeCompare x y = 1).
Proof.
  rewrite ConstantTimeCompare_plain.
  destruct (Nat.eqb_spec (length x) (length y)) as [Hlen | Hlen]; cbn [negb].
  - destruct (fold_xor_into (combine x y) 0 ltac:(lia)) as (Hr & Hiff).
    rewrite ConstantTimeByteEq_zero by trivial.
    rewrite combine_same in Hiff by trivial.
    destruct (Z.eqb_spec (fold_left xor_into (combine x y) 0) 0) as [E | E].
    + split; [| now right]. split; trivial. intros _. now apply Hiff.
    + split; [| now left]. split; [discriminate |].
      intros Hxy. exfalso. apply E. apply Hiff. now split.
  - split; [| now left]. split; [discriminate |].
    intros ->. contradiction.
Qed.

End SubtleFacts.

(** ** crypto/ecschnorr.go *)

Lemma s256_N_bounds : 0 < s256_N < 256 ^ 32.
Proof. split; vm_compute; reflexivity. Qed.

Lemma ComputeECPublic_pair {s256 : Curve} k :
  ComputeECPublic k
  = {| X := fst (ScalarBaseMult k); Y := snd (ScalarBaseMult k) |}.
Proof. unfold ComputeECPublic. now destruct (ScalarBaseMult k). Qed.

Section ECSchnorrFacts.
Context {s256 : Curve}.
Variable HashBytes : list byte -> list byte.

Lemma Sign_returns k data sec :
  ECSchnorrSign HashBytes (Ok k) data sec
  = Some (Ok {| SigE := challenge HashBytes k data;
                SigS := be_bytes 32 (response HashBytes k data sec) |}).
Proof.
  pose proof s256_N_bounds as HN.
  unfold ECSchnorrSign. cbv zeta. rewrite copy_concat.
  fold (challenge HashBytes k data). rewrite Mod_spec by lia.
  fold (response HashBytes k data sec).
  assert (Hs : 0 <= response HashBytes k data sec < s256_N)
    by (apply Z.mod_pos_bound; lia).
  assert (Hl : (length (BigInt.Bytes (response HashBytes k data sec)) <= 32)%nat).
  { apply BigIntFacts.Bytes_length_le. change (Z.of_nat 32) with 32. lia. }
  unfold HashSize, ECSchnorrEntropySize.
  destruct (Z.ltb_spec
              (Z.of_nat 32 - Z.of_nat (length (BigInt.Bytes (response HashBytes k data sec))))
              0) as [Hlt | Hge]; [lia |].
  replace (Z.to_nat (Z.of_nat 32
                     - Z.of_nat (length (BigInt.Bytes (response HashBytes k data sec)))))
    with (32 - length (BigInt.Bytes (response HashBytes k data sec)))%nat by lia.
  rewrite copy_tail by trivial.
  rewrite <- pad_short by trivial.
  rewrite pad_Bytes_be_bytes by (change (Z.of_nat 32) with 32; lia).
  reflexivity.
Qed.

Lemma SetBytes_response k data sec :
  BigInt.SetBytes (be_bytes 32 (response HashBytes k data sec)) = response HashBytes k data sec
  /\ 0 <= response HashBytes k data sec < s256_N.
Proof.
  pose proof s256_N_bounds as HN.
  assert (Hs : 0 <= response HashBytes k data sec < s256_N)
    by (apply Z.mod_pos_bound; lia).
  split; trivial.
  rewrite SetBytes_be_bytes. apply Z.mod_small.
  change (Z.of_nat 32) with 32. lia.
Qed.

Lemma Verify_unfold sig data pubKey :
  Verify HashBytes sig data pubKey
  = let sG := ScalarBaseMult (SigS sig) in
    let ePub := ScalarMult (X pubKey) (Y pubKey) (SigE sig) in
    let kG := Add (fst sG) (snd sG) (fst ePub) (snd ePub) in
    let e := HashBytes (data ++ Serialize {| X := fst kG; Y := snd kG |}) in
    if negb (Subtle.ConstantTimeCompare e (SigE sig) =? 1)
    then Some ErrECSchnorrVerify else None.
Proof.
  unfold Verify. cbv zeta.
  destruct (ScalarBaseMult (SigS sig)) as (sGx, sGy).
  destruct (ScalarMult (X pubKey) (Y pubKey) (SigE sig)) as (ePubx, ePuby).
  cbn [fst snd].
  destruct (Add sGx sGy ePubx ePuby) as (kGx, kGy). cbn [fst snd].
  now rewrite copy_concat.
Qed.

(** C6.  [ECSchnorrSign] does not panic; it returns a signature exactly
    when the entropy source returned a nonce [k], and then the S
    component, read as a big-endian integer, is [(k - e.r) mod N], which
    is below the group order [N], stored in 32 bytes. *)
Theorem Sign_S_below_N rnd data sec :
  match ECSchnorrSign HashBytes rnd data sec with
  | Some (Ok sig) =>
      exists k, rnd = Ok k
        /\ BigInt.SetBytes (SigS sig)
           = (BigInt.SetBytes k - BigInt.SetBytes (SigE sig) * R sec) mod s256_N
        /\ 0 <= BigInt.SetBytes (SigS sig) < s256_N
        /\ length (SigS sig) = 32%nat
  | Some (Err e) => rnd = Err e
  | None => False
  end.
Proof.
  destruct rnd as [k | e]; [| reflexivity].
  rewrite Sign_returns. exists k. cbn [SigE SigS].
  destruct (SetBytes_response k data sec) as (Hv & Hr).
  rewrite Hv. split; [reflexivity |].
  split; [reflexivity |]. split; [exact Hr | apply be_bytes_length].
Qed.


(** C1.  For every message and every secret key whose public point is
    [ComputeECPublic] of its scalar, signing with any 32-byte nonce [k]
    that the entropy source returns yields a signature that [Verify]
    accepts: the recomputed challenge equals the signature's [e].  The
    curve library is assumed to compute in the group of order [N], and the
    hash to return [HashSize] bytes. *)
Theorem Sign_Verify {laws : CurveLaws s256} k data sec rBytes :
  (forall d, length (HashBytes d) = HashSize) ->
  length k = ECSchnorrEntropySize ->
  scalar rBytes ->
  Public sec = ComputeECPublic rBytes ->
  R sec = BigInt.SetBytes rBytes ->
  exists sig,
    ECSchnorrSign HashBytes (Ok k) data sec = Some (Ok sig)
    /\ Verify HashBytes sig data (Public sec) = None.
Proof.
  intros Hhash Hk Hr32 Hpub HR. pose proof s256_N_bounds as HN.
  eexists. split; [apply Sign_returns |].
  rewrite Verify_unfold. cbv zeta. cbn [SigE SigS].
  destruct (SetBytes_response k data sec) as (Hv & Hr).
  rewrite Hpub, ComputeECPublic_pair. cbn [X Y].
  set (e := challenge HashBytes k data) in *.
  set (c := BigInt.Bytes ((BigInt.SetBytes e * BigInt.SetBytes rBytes) mod s256_N)).
  assert (Hcr : 0 <= (BigInt.SetBytes e * BigInt.SetBytes rBytes) mod s256_N
                < s256_N) by (apply Z.mod_pos_bound; lia).
  assert (Hc : BigInt.SetBytes c
               = (BigInt.SetBytes e * BigInt.SetBytes rBytes) mod s256_N).
  { unfold c. rewrite BigIntFacts.SetBytes_Bytes. apply Z.abs_eq. lia. }
  assert (Hcl : scalar c).
  { apply BigIntFacts.Bytes_length_le. change (Z.of_nat 32) with 32. lia. }
  assert (Hel : scalar e) by (unfold scalar, e, challenge; now rewrite Hhash).
  assert (Hsl : scalar (be_bytes 32 (response HashBytes k data sec)))
    by (unfold scalar; now rewrite be_bytes_length).
  assert (Hkl : scalar k) by (unfold scalar; now rewrite Hk).
  rewrite (scalar_mult_base rBytes e c) by (trivial; rewrite Hc; apply Z.mod_mod; lia).
  rewrite (add_base _ c k); trivial.
  - rewrite <- ComputeECPublic_pair.
    change (HashBytes (data ++ Serialize (ComputeECPublic k))) with e.
    destruct (SubtleFacts.ConstantTimeCompare_spec e e) as (Hiff & _).
    rewrite (proj2 Hiff eq_refl). reflexivity.
  - rewrite Hv, Hc. unfold response. fold e. rewrite HR.
    rewrite <- Zplus_mod.
    f_equal. ring.
Qed.
End ECSchnorrFacts.

(** The model curve meets the laws. *)
Lemma ZN_curve_laws : CurveLaws ZN_curve.
Proof.
  split; cbn [ScalarBaseMult ScalarMult Add ZN_curve fst snd].
  - intros r e c _ _ _ H. rewrite H. f_equal. now rewrite Zmult_mod_idemp_r.
  - intros a b c _ _ _ H. rewrite H. f_equal. now rewrite <- Zplus_mod.
Qed.

Lemma Sign_Verify_witness :
  exists sig,
    ECSchnorrSign (s256 := ZN_curve) model_hash (Ok SignExample.nonce)
      SignExample.msg SignExample.sec = Some (Ok sig)
    /\ Verify (s256 := ZN_curve) model_hash sig SignExample.msg
         (Public SignExample.sec) = None.
Proof.
  apply (Sign_Verify (s256 := ZN_curve) model_hash (laws := ZN_curve_laws)
           SignExample.nonce SignExample.msg SignExample.sec [x01]).
  - intros d. apply be_bytes_length.
  - reflexivity.
  - unfold scalar. cbn [length]. lia.
  - reflexivity.
  - reflexivity.
Defined.

(** On the example the signature is accepted as it is, and refused once the
    message or the S component is altered. *)
Example Verify_example :
  match ECSchnorrSign (s256 := ZN_curve) model_hash (Ok SignExample.nonce)
          SignExample.msg SignExample.sec with
  | Some (Ok sig) =>
      Verify (s256 := ZN_curve) model_hash sig SignExample.msg
        (Public SignExample.sec) = None
      /\ Verify (s256 := ZN_curve) model_hash sig (x21 :: SignExample.msg)
           (Public SignExample.sec) = Some ErrECSchnorrVerify
      /\ Verify (s256 := ZN_curve) model_hash
           {| SigE := SigE sig; SigS := x01 :: tl (SigS sig) |}
           SignExample.msg (Public SignExample.sec) = Some ErrECSchnorrVerify
  | _ => False
  end.
Proof. vm_compute. repeat split; reflexivity. Qed.

(** ** modules/renter/hostdb/hostdb.go *)

Lemma chan_send_full {A : Type} (c : chan A) v :
  length (chan_buf c) = chan_cap c ->
  chan_send c v = None /\ chan_try_send c v = (c, false).
Proof.
  intros Hfull. unfold chan_try_send, chan_send.
  rewrite Hfull, Nat.ltb_irrefl. now split.
Qed.

Lemma chan_step_invariant {A : Type} (c c' : chan A) :
  chan_step c c' ->
  (length (chan_buf c) <= chan_cap c)%nat ->
  chan_cap c' = chan_cap c /\ (length (chan_buf c') <= chan_cap c')%nat.
Proof.
  intros Hstep Hle. destruct Hstep as [c v c' Hs | c v c' Hr].
  - unfold chan_send in Hs.
    destruct (Nat.ltb_spec (length (chan_buf c)) (chan_cap c)) as [Hlt | Hge];
      [| discriminate].
    injection Hs as <-. cbn [chan_cap chan_buf].
    rewrite length_app. cbn [length]. lia.
  - unfold chan_recv in Hr. destruct (chan_buf c) as [| x rest] eqn:Hb;
      [discriminate |].
    injection Hr as _ <-. cbn [chan_cap chan_buf]. cbn [length] in Hle. lia.
Qed.

(** A channel made with capacity [n] never holds more than [n] values. *)
Lemma chan_bounded {A : Type} (n : nat) (c : chan A) :
  chan_reachable (make_chan n) c ->
  chan_cap c = n /\ (length (chan_buf c) <= n)%nat.
Proof.
  induction 1 as [| c c' Hreach IH Hstep].
  - cbn. split; [reflexivity | lia].
  - destruct IH as (Hcap & Hlen).
    destruct (chan_step_invariant c c' Hstep) as (Hcap' & Hlen'); [lia |].
    split; lia.
Qed.

Section HostDBFacts.
Variables ConsensusSet WalletShim Wallet TransactionPool : Type.
Variables Dialer Sleeper Persister Logger : Type.
Variables hostNode hostEntry NetAddress FileContractID hostContract : Type.
Variables UnlockHash World : Type.

Local Abbreviation HostDB1 :=
  (HostDB.HostDB WalletShim TransactionPool Dialer Sleeper Persister Logger
     hostNode hostEntry NetAddress FileContractID hostContract UnlockHash).
Local Abbreviation HostDB0 :=
  (HostDB0.HostDB Wallet TransactionPool Logger hostNode hostEntry NetAddress
     FileContractID hostContract UnlockHash).

Variable MkdirAll : String.string -> M World unit.
Variable newLogger : String.string -> M World Logger.
Variable newPersist : String.string -> Persister.
Variables (stdDialer : Dialer) (stdSleeper : Sleeper).
Variable load : HostDB1 -> World -> World * HostDB1 * option error.
Variable IsNotExist : error -> bool.
Variable scanningThreads : nat.
Variable go_threadedProbeHosts : HostDB1 -> World -> World.
Variable go_threadedScan : HostDB1 -> World -> World.
Variable ConsensusSetSubscribe : ConsensusSet -> HostDB1 -> World -> World.

Variable initPersist : HostDB0 -> World -> World * HostDB0 * option error.
Variable go_threadedProbeHosts0 : HostDB0 -> World -> World.
Variable go_threadedScan0 : HostDB0 -> World -> World.
Variable ConsensusSetSubscribe0 : ConsensusSet -> HostDB0 -> World -> World.

(** C8.  [New] returns no HostDB and the distinct nil-dependency error
    whenever the consensus set, the wallet or the transaction pool is nil:
    [errNilCS], [errNilWallet], [errNilTpool], checked in that order, and
    the state of the world is left as it was (no side effect has happened).
    Both revisions of hostdb.go behave so. *)
Theorem New_nil_dependency :
  (forall wallet tpool dir w,
     HostDB.New MkdirAll newLogger newPersist stdDialer stdSleeper load
       IsNotExist scanningThreads go_threadedProbeHosts go_threadedScan
       ConsensusSetSubscribe None wallet tpool dir w
     = (w, Err errNilCS))
  /\ (forall cs tpool dir w,
     HostDB.New MkdirAll newLogger newPersist stdDialer stdSleeper load
       IsNotExist scanningThreads go_threadedProbeHosts go_threadedScan
       ConsensusSetSubscribe (Some cs) None tpool dir w
     = (w, Err errNilWallet))
  /\ (forall cs wallet dir w,
     HostDB.New MkdirAll newLogger newPersist stdDialer stdSleeper load
       IsNotExist scanningThreads go_threadedProbeHosts go_threadedScan
       ConsensusSetSubscribe (Some cs) (Some wallet) None dir w
     = (w, Err errNilTpool))
  /\ (forall wallet tpool dir w,
     HostDB0.New initPersist scanningThreads go_threadedProbeHosts0
       go_threadedScan0 ConsensusSetSubscribe0 None wallet tpool dir w
     = (w, Err errNilCS))
  /\ (forall cs tpool dir w,
     HostDB0.New initPersist scanningThreads go_threadedProbeHosts0
       go_threadedScan0 ConsensusSetSubscribe0 (Some cs) None tpool dir w
     = (w, Err errNilWallet))
  /\ (forall cs wallet dir w,
     HostDB0.New initPersist scanningThreads go_threadedProbeHosts0
       go_threadedScan0 ConsensusSetSubscribe0 (Some cs) (Some wallet) None dir w
     = (w, Err errNilTpool))
  /\ errNilCS <> errNilWallet /\ errNilCS <> errNilTpool
  /\ errNilWallet <> errNilTpool.
Proof.
  repeat split; try reflexivity; discriminate.
Qed.

(** C9.  The scan queue is bounded with capacity exactly 1000: [newHostDB]
    makes the [scanPool] channel with buffer size [scanPoolSize = 1000], so
    whatever the goroutines send and receive, at most 1000 host entries wait
    in it, and an enqueue on the full queue does not grow it (a plain send
    stays blocked, a send under [select] with [default] is dropped). *)
Theorem scanPool_bounded w tp d s p l (w0 : HostDB0.hdbWalletShim Wallet) dir :
  let hdb1 : HostDB1 := HostDB.newHostDB w tp d s p l in
  let pool := HostDB.scanPool hdb1 in
  scanPoolSize = 1000%nat
  /\ pool = make_chan (A := hostEntry) scanPoolSize
  /\ (exists hdb : HostDB0,
        HostDB0.newHostDB w0 tp dir = Ok hdb
        /\ HostDB0.scanPool hdb = pool)
  /\ (forall c, chan_reachable pool c ->
        chan_cap c = 1000%nat /\ (length (chan_buf c) <= 1000)%nat)
  /\ (forall c v, chan_reachable pool c -> length (chan_buf c) = 1000%nat ->
        chan_send c v = None /\ chan_try_send c v = (c, false)).
Proof.
  cbv zeta. cbn [HostDB.scanPool HostDB.newHostDB].
  split; [reflexivity |]. split; [reflexivity |].
  split; [eexists; split; reflexivity |].
  split.
  - intros c Hc. now apply chan_bounded in Hc.
  - intros c v Hc Hfull. apply chan_send_full.
    apply chan_bounded in Hc. destruct Hc as (Hcap & _). now rewrite Hcap.
Qed.
End HostDBFacts.

(** * Further properties of the code *)

(** ** crypto/eckey.go *)

(** X1.  [pad] always returns exactly [size] bytes, for a nil, short or long
    input, and their big-endian value is the value of the input modulo
    [256^size]: a short input is left-padded with zero bytes, of a long one
    only the last [size] bytes are kept. *)
Theorem pad_value s n :
  length (pad s n) = n
  /\ BigInt.SetBytes (pad s n) = BigInt.SetBytes (elems s) mod 256 ^ Z.of_nat n
  /\ ((len s <= n)%nat -> pad s n = repeat x00 (n - len s) ++ elems s)
  /\ ((n <= len s)%nat -> exists pre, elems s = pre ++ pad s n).
Proof.
  split; [apply pad_length |]. split; [apply SetBytes_pad |].
  destruct s as [bs |]; cbn [len elems].
  - split; intros Hle.
    + now apply pad_short.
    + exists (firstn (length bs - n) bs).
      rewrite pad_long by trivial. symmetry. apply firstn_skipn.
  - split; intros Hle.
    + cbn [pad]. unfold make. rewrite Nat.sub_0_r. now rewrite app_nil_r.
    + exists []. assert (n = 0%nat) by lia. subst n. reflexivity.
Qed.

Lemma pad_value_witness :
  length (pad (Some [x01]) 32) = 32%nat
  /\ BigInt.SetBytes (pad (Some [x01]) 32)
     = BigInt.SetBytes (elems (Some [x01])) mod 256 ^ Z.of_nat 32
  /\ ((len (Some [x01]) <= 32)%nat ->
      pad (Some [x01]) 32 = repeat x00 (32 - len (Some [x01])) ++ elems (Some [x01]))
  /\ ((32 <= len (Some [x01]))%nat ->
      exists pre, elems (Some [x01]) = pre ++ pad (Some [x01]) 32).
Proof. exact (pad_value (Some [x01]) 32). Defined.

(** X2.  Whatever the signs and sizes of the coordinates, decoding the
    serialized form of a point succeeds and returns the absolute values of
    its coordinates modulo [2^256]: [Serialize] keeps no sign and only the 32
    low-order bytes. *)
Theorem Deserialize_Serialize_any pub :
  DeserializeECPublic (Some (Serialize pub))
  = Ok {| X := wire_value (X pub); Y := wire_value (Y pub) |}.
Proof.
  unfold DeserializeECPublic.
  rewrite Serialize_length. cbn [Nat.eqb negb ECCoordinateSize Nat.add Nat.mul].
  rewrite Serialize_shape.
  set (px := pad (Some (BigInt.Bytes (X pub))) 32).
  set (py := pad (Some (BigInt.Bytes (Y pub))) 32).
  assert (Hpx : length px = 32%nat) by apply pad_length.
  assert (Hpy : length py = 32%nat) by apply pad_length.
  unfold ECHeaderUncompressed.
  replace (Byte.eqb x04 x04) with true by reflexivity. cbn [negb].
  rewrite sub_middle by (now rewrite Hpx).
  rewrite sub_tail by (now rewrite Hpx, ?Hpy).
  unfold px, py. rewrite !SetBytes_pad. cbn [elems].
  now rewrite !BigIntFacts.SetBytes_Bytes.
Qed.

Lemma Deserialize_Ok_inv data pub :
  DeserializeECPublic data = Ok pub ->
  exists xs ys,
    data = Some (x04 :: xs ++ ys)
    /\ length xs = 32%nat /\ length ys = 32%nat
    /\ pub = {| X := BigInt.SetBytes xs; Y := BigInt.SetBytes ys |}.
Proof.
  unfold DeserializeECPublic. destruct data as [bs |]; [| discriminate].
  destruct (Nat.eqb_spec (length bs) (1 + 2 * ECCoordinateSize)) as [Hlen | Hlen];
    cbn [negb]; [| discriminate].
  destruct bs as [| h rest]; [discriminate |].
  destruct (Byte.eqb h ECHeaderUncompressed) eqn:Hh; cbn [negb]; [| discriminate].
  apply byte_eqb_eq in Hh. subst h. intros E. injection E as <-.
  cbn [length] in Hlen. unfold ECCoordinateSize in *.
  exists (firstn 32 rest), (skipn 32 rest).
  assert (Hx : length (firstn 32 rest) = 32%nat) by (rewrite length_firstn; lia).
  assert (Hy : length (skipn 32 rest) = 32%nat) by (rewrite length_skipn; lia).
  rewrite firstn_skipn. repeat split; trivial.
  rewrite <- (firstn_skipn 32 rest) at 1 2 3.
  unfold ECHeaderUncompressed.
  rewrite sub_middle by (now rewrite Hx).
  rewrite sub_tail; trivial.
  - now rewrite Hx.
  - rewrite Hx. cbn [length]. rewrite length_app, Hx, Hy. reflexivity.
Qed.

(** X3.  Encoding what [DeserializeECPublic] decoded gives the input back:
    every accepted input is the serialized form of the point it decodes to. *)
Theorem Serialize_Deserialize data pub :
  DeserializeECPublic data = Ok pub -> Some (Serialize pub) = data.
Proof.
  intros H. apply Deserialize_Ok_inv in H.
  destruct H as (xs & ys & -> & Hx & Hy & ->).
  rewrite Serialize_shape. cbn [X Y].
  pose proof (pad_Bytes_SetBytes xs) as Ex. rewrite Hx in Ex.
  pose proof (pad_Bytes_SetBytes ys) as Ey. rewrite Hy in Ey.
  now rewrite Ex, Ey.
Qed.

Lemma Serialize_Deserialize_witness :
  Some (Serialize {| X := 0; Y := 0 |}) = Some (x04 :: repeat x00 64).
Proof.
  apply (Serialize_Deserialize (Some (x04 :: repeat x00 64)) {| X := 0; Y := 0 |}).
  reflexivity.
Defined.

Lemma SerializeSecret_shape sec :
  SerializeSecret sec
  = ECHeaderSerializedSecret :: pad (Some (BigInt.Bytes (R sec))) 32.
Proof. reflexivity. Qed.

Lemma sub_rest (h : byte) (xs : list byte) :
  sub (h :: xs) 1 (length (h :: xs)) = xs.
Proof.
  rewrite <- (app_nil_r xs) at 1 2. apply sub_middle.
  cbn [length]. rewrite app_nil_r. reflexivity.
Qed.

(** X4.  Decoding a serialized secret key always succeeds; it keeps the
    scalar R (its absolute value modulo [2^256]) and computes the public
    point from the 32 serialized bytes: the public point the key carried is
    not part of the encoding. *)
Theorem DeserializeSecret_SerializeSecret {s256 : Curve} sec :
  DeserializeECSecret (Some (SerializeSecret sec))
  = Ok {| Public := ComputeECPublic (be_bytes 32 (wire_value (R sec)));
          R := wire_value (R sec) |}.
Proof.
  rewrite SerializeSecret_shape, pad_Bytes_wire.
  unfold DeserializeECSecret. cbn [len length].
  rewrite be_bytes_length. cbn [Nat.eqb negb ECCoordinateSize Nat.add].
  unfold ECHeaderSerializedSecret.
  replace (Byte.eqb x08 x08) with true by reflexivity. cbn [negb].
  pose proof (sub_rest x08 (be_bytes 32 (wire_value (R sec)))) as Hs.
  cbn [length] in Hs. rewrite be_bytes_length in Hs. rewrite Hs.
  rewrite SetBytes_be_bytes.
  assert (Hw : wire_value (R sec) mod 256 ^ Z.of_nat 32 = wire_value (R sec)).
  { unfold wire_value. change (Z.of_nat 32) with 32. apply Z.mod_mod. lia. }
  now rewrite Hw.
Qed.

Lemma DeserializeSecret_Ok_inv {s256 : Curve} data sec :
  DeserializeECSecret data = Ok sec ->
  exists rs,
    data = Some (x08 :: rs) /\ length rs = 32%nat
    /\ sec = {| Public := ComputeECPublic rs; R := BigInt.SetBytes rs |}.
Proof.
  unfold DeserializeECSecret.
  destruct (Nat.eqb_spec (len data) (1 + ECCoordinateSize)) as [Hlen | Hlen];
    cbn [negb]; [| discriminate].
  destruct data as [[| h rs] |]; try discriminate.
  destruct (Byte.eqb h ECHeaderSerializedSecret) eqn:Hh; cbn [negb]; [| discriminate].
  apply byte_eqb_eq in Hh. subst h. intros E. injection E as <-.
  rewrite sub_rest. exists rs. cbn [len length] in Hlen.
  unfold ECCoordinateSize in Hlen. repeat split; trivial. lia.
Qed.

(** X5.  Encoding what [DeserializeECSecret] decoded gives the input back,
    and the decoded key's public point is [ComputeECPublic] of the 32 bytes
    that follow the header. *)
Theorem SerializeSecret_DeserializeSecret {s256 : Curve} data sec :
  DeserializeECSecret data = Ok sec ->
  Some (SerializeSecret sec) = data
  /\ Public sec = ComputeECPublic (skipn 1 (elems data))
  /\ 0 <= R sec < 256 ^ 32.
Proof.
  intros H. apply DeserializeSecret_Ok_inv in H.
  destruct H as (rs & -> & Hlen & ->).
  rewrite SerializeSecret_shape. cbn [R Public elems skipn].
  pose proof (pad_Bytes_SetBytes rs) as E. rewrite Hlen in E. rewrite E.
  repeat split; trivial.
  - apply BigIntFacts.SetBytes_range.
  - pose proof (BigIntFacts.SetBytes_range rs) as Hr. rewrite Hlen in Hr.
    apply Hr.
Qed.

Lemma SerializeSecret_DeserializeSecret_witness :
  let data := Some (x08 :: repeat x00 31 ++ [x01]) in
  let sec := {| Public := ComputeECPublic (s256 := ZN_curve) (repeat x00 31 ++ [x01]);
                R := 1 |} in
  Some (SerializeSecret sec) = data
  /\ Public sec = ComputeECPublic (s256 := ZN_curve) (skipn 1 (elems data))
  /\ 0 <= R sec < 256 ^ 32.
Proof.
  apply (SerializeSecret_DeserializeSecret (s256 := ZN_curve)
           (Some (x08 :: repeat x00 31 ++ [x01]))).
  reflexivity.
Defined.

(** ** Decompression *)

Lemma candidate_range x : 0 < candidate x < s256_P.
Proof.
  destruct (candidate_Zmod x) as (Hr & _).
  pose proof (candidate_nonzero_Z x). lia.
Qed.

(** The ordinate [UncompressECPublic] selects for header [h] and abscissa
    [x]. *)
Lemma selected_Y (h : byte) x :
  h = ECHeaderCompressedEven \/ h = ECHeaderCompressedOdd ->
  let c := candidate x in
  let y := if negb (Z.lxor (c mod 2) (Z_of_byte h mod 2) =? 0)
           then BigInt.Mod (s256_P - c) s256_P else c in
  0 < y < s256_P /\ y mod 2 = Z_of_byte h mod 2
  /\ ((y = c /\ c mod 2 = Z_of_byte h mod 2)
      \/ (y = s256_P - c /\ c mod 2 <> Z_of_byte h mod 2)).
Proof.
  intros Hh. cbv zeta.
  pose proof (candidate_range x) as Hc. pose proof s256_P_bounds as HP.
  pose proof (parity_opposite (candidate x)) as Hop.
  pose proof (Z.mod_pos_bound (candidate x) 2 eq_refl) as Hb.
  rewrite Mod_spec by lia. rewrite (Z.mod_small (s256_P - candidate x)) by lia.
  assert (Hhp : Z_of_byte h mod 2 = 0 \/ Z_of_byte h mod 2 = 1)
    by (destruct Hh as [-> | ->]; [now left | now right]).
  assert (Hcp : candidate x mod 2 = 0 \/ candidate x mod 2 = 1) by lia.
  destruct Hhp as [Eh | Eh], Hcp as [Ec | Ec]; rewrite Eh, Ec in *;
    [ change (Z.lxor 0 0) with 0 | change (Z.lxor 1 0) with 1
    | change (Z.lxor 0 1) with 1 | change (Z.lxor 1 1) with 0 ];
    cbn [Z.eqb negb]; lia.
Qed.

Lemma Some_Ok_inj {A : Type} (a b : A) : Some (Ok a) = Some (Ok b) -> a = b.
Proof. intros H. now injection H. Qed.

Lemma Uncompress_Ok_inv data pub :
  UncompressECPublic data = Some (Ok pub) ->
  exists h xs,
    data = Some (h :: xs) /\ length xs = 32%nat
    /\ (h = ECHeaderCompressedEven \/ h = ECHeaderCompressedOdd)
    /\ pub = {| X := BigInt.SetBytes xs;
                Y := if negb (Z.lxor (candidate (BigInt.SetBytes xs) mod 2)
                                     (Z_of_byte h mod 2) =? 0)
                     then BigInt.Mod (s256_P - candidate (BigInt.SetBytes xs)) s256_P
                     else candidate (BigInt.SetBytes xs) |}.
Proof.
  intros H. destruct data as [bs |]; [| discriminate].
  destruct (Nat.eq_dec (length bs) 33) as [Hlen | Hlen].
  - destruct (slice_33_inv bs Hlen) as (h & xs & -> & Hxs).
    assert (Hh : h = ECHeaderCompressedEven \/ h = ECHeaderCompressedOdd).
    { destruct (Byte.byte_eq_dec h x02) as [H2 | H2]; [now left |].
      destruct (Byte.byte_eq_dec h x03) as [H3 | H3]; [now right |].
      exfalso. revert H. unfold UncompressECPublic. rewrite Hlen.
      cbn [Nat.eqb negb ECCoordinateSize Nat.add].
      apply byte_eqb_neq in H2, H3.
      unfold ECHeaderCompressedEven, ECHeaderCompressedOdd.
      rewrite H2, H3. discriminate. }
    rewrite Uncompress_well_formed in H by trivial. cbv zeta in H.
    apply Some_Ok_inj in H. exists h, xs.
    split; [reflexivity |]. split; [exact Hxs |]. split; [exact Hh |].
    symmetry. exact H.
  - exfalso. revert H. unfold UncompressECPublic.
    apply Nat.eqb_neq in Hlen. unfold ECCoordinateSize.
    change (1 + 32)%nat with 33%nat. rewrite Hlen. discriminate.
Qed.

(** X6.  Compressing what [UncompressECPublic] decoded gives the input back:
    the header is kept because the ordinate chosen has the header's parity,
    and this holds for every accepted input, on the curve or not. *)
Theorem Compress_after_Uncompress data pub :
  UncompressECPublic data = Some (Ok pub) ->
  exists bs, data = Some bs /\ Compress pub = Some bs.
Proof.
  intros H. apply Uncompress_Ok_inv in H.
  destruct H as (h & xs & -> & Hlen & Hh & Hpub).
  exists (h :: xs). split; trivial. revert Hpub.
  destruct (selected_Y h (BigInt.SetBytes xs) Hh) as (Hr & Hpar & _).
  cbv zeta in Hr, Hpar.
  set (y0 := if negb _ then _ else _) in *. clearbody y0.
  intros ->.
  rewrite Compress_nonzero by (cbn [Y]; lia). cbn [X Y].
  rewrite Z.abs_eq by lia. rewrite Hpar.
  pose proof (pad_Bytes_SetBytes xs) as E. rewrite Hlen in E.
  unfold ECCoordinateSize. rewrite E.
  destruct Hh as [-> | ->]; reflexivity.
Qed.

Lemma Compress_after_Uncompress_witness :
  exists bs,
    Some (Compress_spec TestCases.G) = Some bs /\ Compress TestCases.G = Some bs.
Proof.
  apply (Compress_after_Uncompress (Some (Compress_spec TestCases.G)) TestCases.G).
  vm_compute. reflexivity.
Defined.

(** X7.  For every accepted input with header [h], the decoded ordinate is
    strictly between 0 and [P] and has the parity of [h]; the decoded point
    is on the curve exactly when its abscissa is below [P] and [x^3 + B] is
    a square modulo [P], that is whenever the curve has a point with that
    abscissa: nothing else is validated. *)
Theorem Uncompress_result h xs pub :
  UncompressECPublic (Some (h :: xs)) = Some (Ok pub) ->
  X pub = BigInt.SetBytes xs
  /\ 0 < Y pub < s256_P
  /\ Y pub mod 2 = Z_of_byte h mod 2
  /\ (on_curve pub <->
      X pub < s256_P
      /\ exists y, (y * y) mod s256_P = (X pub ^ 3 + s256_B) mod s256_P).
Proof.
  intros H. apply Uncompress_Ok_inv in H.
  destruct H as (h' & xs' & E & Hlen & Hh & Hpub).
  injection E as <- <-.
  pose proof s256_P_bounds as HP.
  pose proof (BigIntFacts.SetBytes_range xs) as Hx.
  destruct (selected_Y h (BigInt.SetBytes xs) Hh) as (Hr & Hpar & Hsel).
  cbv zeta in Hr, Hpar, Hsel.
  assert (Hroot : forall y, 0 <= y < s256_P ->
            BigInt.SetBytes xs < s256_P ->
            (y * y) mod s256_P = (BigInt.SetBytes xs ^ 3 + s256_B) mod s256_P ->
            candidate (BigInt.SetBytes xs) = y
            \/ candidate (BigInt.SetBytes xs) = s256_P - y).
  { intros y Hy HX Hc.
    apply (candidate_on_curve {| X := BigInt.SetBytes xs; Y := y |}).
    unfold on_curve. cbn [X Y]. repeat split; trivial; lia. }
  set (y0 := if negb _ then _ else _) in *. clearbody y0.
  set (c := candidate _) in *. clearbody c.
  set (x := BigInt.SetBytes xs) in *. clearbody x.
  subst pub. cbn [X Y].
  split; [reflexivity |]. split; [exact Hr |]. split; [exact Hpar |].
  unfold on_curve. cbn [X Y]. split.
  - intros (HX & _ & Hc). split; [lia |]. now exists y0.
  - intros (HX & y & Hy). split; [lia |]. split; [lia |].
    pose proof (Z.mod_pos_bound y s256_P ltac:(lia)) as Hym.
    assert (Hyy : (y mod s256_P * (y mod s256_P)) mod s256_P
                  = (x ^ 3 + s256_B) mod s256_P)
      by (now rewrite <- Zmult_mod).
    specialize (Hroot (y mod s256_P) Hym HX Hyy).
    rewrite <- Hyy.
    assert (Hy0 : y0 = y mod s256_P \/ y0 = s256_P - y mod s256_P) by lia.
    destruct Hy0 as [-> | ->]; [reflexivity |].
    replace ((s256_P - y mod s256_P) * (s256_P - y mod s256_P))
      with (y mod s256_P * (y mod s256_P)
            + (s256_P - 2 * (y mod s256_P)) * s256_P) by ring.
    now rewrite Z.mod_add by lia.
Qed.

Lemma Uncompress_result_witness :
  let pub := TestCases.G in
  X pub = BigInt.SetBytes (be_bytes 32 (X TestCases.G))
  /\ 0 < Y pub < s256_P
  /\ Y pub mod 2 = Z_of_byte x02 mod 2
  /\ (on_curve pub <->
      X pub < s256_P
      /\ exists y, (y * y) mod s256_P = (X pub ^ 3 + s256_B) mod s256_P).
Proof.
  apply (Uncompress_result x02 (be_bytes 32 (X TestCases.G)) TestCases.G).
  vm_compute. reflexivity.
Defined.

(** X8.  The two headers select the two square roots: decoding the same 32
    bytes under the other header returns the opposite point, with ordinate
    [P - Y]. *)
Theorem Uncompress_other_header h xs :
  length xs = 32%nat ->
  h = ECHeaderCompressedEven \/ h = ECHeaderCompressedOdd ->
  exists pub,
    UncompressECPublic (Some (h :: xs)) = Some (Ok pub)
    /\ UncompressECPublic (Some (flip_header h :: xs)) = Some (Ok (negate pub))
    /\ Y (negate pub) = s256_P - Y pub.
Proof.
  intros Hlen Hh. pose proof s256_P_bounds as HP.
  assert (Hf : flip_header h = ECHeaderCompressedEven
               \/ flip_header h = ECHeaderCompressedOdd)
    by (destruct Hh as [-> | ->]; [now right | now left]).
  assert (Hfp : Z_of_byte (flip_header h) mod 2 = 1 - Z_of_byte h mod 2)
    by (destruct Hh as [-> | ->]; reflexivity).
  rewrite !Uncompress_well_formed by trivial. cbv zeta.
  destruct (selected_Y h (BigInt.SetBytes xs) Hh) as (Hr & Hpar & Hsel).
  destruct (selected_Y (flip_header h) (BigInt.SetBytes xs) Hf) as (Hr' & Hpar' & Hsel').
  cbv zeta in *.
  set (y := if negb (Z.lxor _ (Z_of_byte h mod 2) =? 0) then _ else _) in *.
  set (y' := if negb (Z.lxor _ (Z_of_byte (flip_header h) mod 2) =? 0)
             then _ else _) in *.
  clearbody y y'.
  set (c := candidate _) in *. clearbody c.
  eexists. split; [reflexivity |].
  unfold negate. cbn [X Y].
  pose proof (Z.mod_pos_bound c 2 eq_refl) as Hc2.
  pose proof (Z.mod_pos_bound (Z_of_byte h) 2 eq_refl) as Hh2.
  assert (Hy' : y' = s256_P - y) by (rewrite Hfp in *; lia).
  rewrite (Z.mod_small (s256_P - y)) by lia.
  split; [now rewrite Hy' | reflexivity].
Qed.

Lemma Uncompress_other_header_witness :
  exists pub,
    UncompressECPublic (Some (x02 :: be_bytes 32 (X TestCases.G))) = Some (Ok pub)
    /\ UncompressECPublic (Some (flip_header x02 :: be_bytes 32 (X TestCases.G)))
       = Some (Ok (negate pub))
    /\ Y (negate pub) = s256_P - Y pub.
Proof.
  apply (Uncompress_other_header x02 (be_bytes 32 (X TestCases.G))).
  - reflexivity.
  - now left.
Defined.

(** ** crypto/ecschnorr.go: further properties *)

Section ECSchnorrMore.
Context {s256 : Curve} {laws : CurveLaws s256}.
Variable HashBytes : list byte -> list byte.




(** X10.  Two signatures made by the same key with the same nonce, on any
    two messages, give the key away up to the difference of the challenges:
    [s1 - s2 = (e2 - e1).r] modulo [N].  The challenge itself does not
    depend on the key. *)
Theorem Sign_nonce_reuse k data1 data2 sec sig1 sig2 :
  ECSchnorrSign HashBytes (Ok k) data1 sec = Some (Ok sig1) ->
  ECSchnorrSign HashBytes (Ok k) data2 sec = Some (Ok sig2) ->
  (BigInt.SetBytes (SigS sig1) - BigInt.SetBytes (SigS sig2)) mod s256_N
  = ((BigInt.SetBytes (SigE sig2) - BigInt.SetBytes (SigE sig1)) * R sec)
      mod s256_N
  /\ forall sec', exists sig',
       ECSchnorrSign HashBytes (Ok k) data1 sec' = Some (Ok sig')
       /\ SigE sig' = SigE sig1.
Proof.
  rewrite !Sign_returns. intros E1 E2.
  apply Some_Ok_inj in E1. apply Some_Ok_inj in E2. subst sig1 sig2.
  cbn [SigE SigS]. split.
  - destruct (SetBytes_response HashBytes k data1 sec) as (-> & _).
    destruct (SetBytes_response HashBytes k data2 sec) as (-> & _).
    unfold response. rewrite <- Zminus_mod. f_equal. ring.
  - intros sec'. eexists. rewrite Sign_returns. split; reflexivity.
Qed.
End ECSchnorrMore.


Lemma Sign_nonce_reuse_witness :
  exists sig1 sig2,
    (BigInt.SetBytes (SigS sig1) - BigInt.SetBytes (SigS sig2)) mod s256_N
    = ((BigInt.SetBytes (SigE sig2) - BigInt.SetBytes (SigE sig1))
       * R SignExample.sec) mod s256_N
    /\ forall sec', exists sig',
         ECSchnorrSign (s256 := ZN_curve) model_hash (Ok SignExample.nonce)
           SignExample.msg sec' = Some (Ok sig')
         /\ SigE sig' = SigE sig1.
Proof.
  eexists. eexists.
  apply (Sign_nonce_reuse (s256 := ZN_curve) model_hash SignExample.nonce
           SignExample.msg (x21 :: SignExample.msg) SignExample.sec).
  - apply Sign_returns.
  - apply Sign_returns.
Defined.

(** ** hostdb.go and renter.go: what [New] does past the nil checks *)

Lemma repeat_effect_iter {World : Type} (f : World -> World) n : forall w,
  repeat_effect n f w = (Nat.iter n f w, Ok tt).
Proof.
  induction n as [| n IH]; intros w.
  - reflexivity.
  - cbn [repeat_effect]. unfold bind, effect. rewrite IH.
    now rewrite Nat.iter_succ_r.
Qed.

Section NewFacts.
Variables ConsensusSet WalletShim Wallet TransactionPool : Type.
Variables Dialer Sleeper Persister Logger : Type.
Variables hostNode hostEntry NetAddress FileContractID hostContract : Type.
Variables UnlockHash World : Type.
Variables download Mutex TwofishKey ErasureCoder : Type.

Local Abbreviation HostDB1 :=
  (HostDB.HostDB WalletShim TransactionPool Dialer Sleeper Persister Logger
     hostNode hostEntry NetAddress FileContractID hostContract UnlockHash).
Local Abbreviation HostDB0 :=
  (HostDB0.HostDB Wallet TransactionPool Logger hostNode hostEntry NetAddress
     FileContractID hostContract UnlockHash).

Variable MkdirAll : String.string -> M World unit.
Variable newLogger : String.string -> M World Logger.
Variable newPersist : String.string -> Persister.
Variables (stdDialer : Dialer) (stdSleeper : Sleeper).
Variable load : HostDB1 -> World -> World * HostDB1 * option error.
Variable IsNotExist : error -> bool.
Variable scanningThreads : nat.
Variable go_threadedProbeHosts : HostDB1 -> World -> World.
Variable go_threadedScan : HostDB1 -> World -> World.
Variable ConsensusSetSubscribe : ConsensusSet -> HostDB1 -> World -> World.

Variable initPersist0 : HostDB0 -> World -> World * HostDB0 * option error.
Variable go_threadedProbeHosts0 : HostDB0 -> World -> World.
Variable go_threadedScan0 : HostDB0 -> World -> World.
Variable ConsensusSetSubscribe0 : ConsensusSet -> HostDB0 -> World -> World.

(** X11.  Past the nil checks, [New] of hostdb.go either fails with the
    error of [MkdirAll], of [newLogger] or of [load] (unless that one says
    the file does not exist), having started no thread and made no
    subscription; or it returns the HostDB as [load] left it, built by
    [newHostDB] on the bridged wallet, after starting [scanningThreads]
    probe threads, then the scan thread, then subscribing to the consensus
    set, in this order. *)
Theorem HostDB_New_outcome cs wallet tpool dir w :
  match HostDB.New MkdirAll newLogger newPersist stdDialer stdSleeper load
          IsNotExist scanningThreads go_threadedProbeHosts go_threadedScan
          ConsensusSetSubscribe (Some cs) (Some wallet) (Some tpool) dir w with
  | (w', Err e) =>
      MkdirAll dir w = (w', Err e)
      \/ (exists w1, MkdirAll dir w = (w1, Ok tt)
          /\ (newLogger dir w1 = (w', Err e)
              \/ exists w2 logger hdb,
                   newLogger dir w1 = (w2, Ok logger)
                   /\ load (HostDB.newHostDB (HostDB.hdbWalletBridge _ wallet)
                              tpool stdDialer stdSleeper (newPersist dir) logger)
                        w2 = (w', hdb, Some e)
                   /\ IsNotExist e = false))
  | (w', Ok hdb) =>
      exists w1 w2 w3 logger err,
        MkdirAll dir w = (w1, Ok tt)
        /\ newLogger dir w1 = (w2, Ok logger)
        /\ load (HostDB.newHostDB (HostDB.hdbWalletBridge _ wallet)
                   tpool stdDialer stdSleeper (newPersist dir) logger)
             w2 = (w3, hdb, err)
        /\ (forall e, err = Some e -> IsNotExist e = true)
        /\ w' = ConsensusSetSubscribe cs hdb
                  (go_threadedScan hdb
                     (Nat.iter scanningThreads (go_threadedProbeHosts hdb) w3))
  end.
Proof.
  unfold HostDB.New, bind, HostDB.load_prior.
  destruct (MkdirAll dir w) as (w1, [[] | e1]) eqn:E1; [| now left].
  destruct (newLogger dir w1) as (w2, [logger | e2]) eqn:E2;
    [| right; exists w1; split; [reflexivity | now left]].
  destruct (load _ w2) as ((w3, hdb), [e3 |]) eqn:E3.
  - destruct (IsNotExist e3) eqn:E4; cbn [negb].
    + rewrite repeat_effect_iter. unfold effect, ret.
      exists w1, w2, w3, logger, (Some e3). repeat split; trivial.
      intros e He. injection He as <-. exact E4.
    + right. exists w1. split; [reflexivity |]. right.
      exists w2, logger, hdb. repeat split; trivial.
  - rewrite repeat_effect_iter. unfold effect, ret.
    exists w1, w2, w3, logger, None. repeat split; trivial. discriminate.
Qed.

(** X12.  The older [New] of hostdb.go, past the nil checks: [newHostDB]
    never fails, so the only error is that of [initPersist], returned before
    any thread is started; on success the HostDB is the one [initPersist]
    left, the threads are started and the subscription is made last. *)
Theorem HostDB0_New_outcome cs wallet tpool dir w :
  match HostDB0.New initPersist0 scanningThreads go_threadedProbeHosts0
          go_threadedScan0 ConsensusSetSubscribe0
          (Some cs) (Some wallet) (Some tpool) dir w with
  | (w', Err e) =>
      exists hdb0 hdb,
        HostDB0.newHostDB (HostDB0.mk_hdbWalletShim _ wallet) tpool dir = Ok hdb0
        /\ initPersist0 hdb0 w = (w', hdb, Some e)
  | (w', Ok hdb) =>
      exists hdb0 w1,
        HostDB0.newHostDB (HostDB0.mk_hdbWalletShim _ wallet) tpool dir = Ok hdb0
        /\ initPersist0 hdb0 w = (w1, hdb, None)
        /\ w' = ConsensusSetSubscribe0 cs hdb
                  (go_threadedScan0 hdb
                     (Nat.iter scanningThreads (go_threadedProbeHosts0 hdb) w1))
  end.
Proof.
  unfold HostDB0.New, bind, HostDB0.init_persist. cbn [HostDB0.newHostDB].
  destruct (initPersist0 _ w) as ((w1, hdb), [e |]) eqn:E.
  - eexists. exists hdb. split; [reflexivity | exact E].
  - rewrite repeat_effect_iter. unfold effect, ret.
    eexists. exists w1. repeat split. exact E.
Qed.

Local Abbreviation Renter0 :=
  (Renter.Renter ConsensusSet Wallet HostDB0 Logger download Mutex
     FileContractID NetAddress TwofishKey ErasureCoder).

Variable sync_New : Mutex.
Variable initPersist : Renter0 -> World -> World * Renter0 * option error.
Variable go_threadedRepairLoop : Renter0 -> World -> World.

(** X13.  [New] of the renter hands its three dependencies to [hostdb.New]
    and returns that function's error as it is: with a nil consensus set,
    wallet or transaction pool the caller gets [errNilCS], [errNilWallet] or
    [errNilTpool], and nothing has happened: no persistence is set up and no
    repair loop runs. *)
Theorem Renter_New_nil_dependency :
  let hostdb_New :=
    HostDB0.New initPersist0 scanningThreads go_threadedProbeHosts0
      go_threadedScan0 ConsensusSetSubscribe0 in
  (forall wallet tpool dir w,
     Renter.New hostdb_New sync_New initPersist go_threadedRepairLoop
       None wallet tpool dir w = (w, Err errNilCS))
  /\ (forall cs tpool dir w,
     Renter.New hostdb_New sync_New initPersist go_threadedRepairLoop
       (Some cs) None tpool dir w = (w, Err errNilWallet))
  /\ (forall cs wallet dir w,
     Renter.New hostdb_New sync_New initPersist go_threadedRepairLoop
       (Some cs) (Some wallet) None dir w = (w, Err errNilTpool)).
Proof. repeat split. Qed.

Variable hostdb_New : option ConsensusSet -> option Wallet ->
  option TransactionPool -> String.string -> M World HostDB0.

(** X14.  [New] of the renter fails exactly with the error of [hostdb.New]
    or, that one having succeeded, of [initPersist], and then no repair loop
    has been started; otherwise it returns the renter [initPersist] left,
    which was handed an empty renter around the new HostDB (no files,
    nothing tracked, no downloads, no logger), and the repair loop is
    started last. *)
Theorem Renter_New_outcome cs wallet tpool dir w :
  let fresh hdb :=
    Renter.mkRenter cs wallet hdb None [] [] [] dir sync_New in
  match Renter.New hostdb_New sync_New initPersist go_threadedRepairLoop
          cs wallet tpool dir w with
  | (w', Err e) =>
      hostdb_New cs wallet tpool dir w = (w', Err e)
      \/ exists hdb w1 r,
           hostdb_New cs wallet tpool dir w = (w1, Ok hdb)
           /\ initPersist (fresh hdb) w1 = (w', r, Some e)
  | (w', Ok r) =>
      exists hdb w1 w2,
        hostdb_New cs wallet tpool dir w = (w1, Ok hdb)
        /\ initPersist (fresh hdb) w1 = (w2, r, None)
        /\ w' = go_threadedRepairLoop r w2
  end.
Proof.
  cbv zeta. unfold Renter.New, bind, Renter.init_persist.
  destruct (hostdb_New cs wallet tpool dir w) as (w1, [hdb | e1]) eqn:E1;
    [| now left].
  destruct (initPersist _ w1) as ((w2, r), [e2 |]) eqn:E2.
  - right. exists hdb, w1, r. split; [reflexivity | exact E2].
  - unfold effect, ret. exists hdb, w1, w2. repeat split. exact E2.
Qed.
End NewFacts.

(** ** modules/renter/files.go *)

Module RenterFacts.
Import Renter.

Section MapFacts.
Context {V : Type}.
Implicit Types m : list (String.string * V).

Lemma lookup_delete_eq k m : lookup k (delete k m) = None.
Proof.
  unfold lookup, delete. induction m as [| (k0, v0) m IH]; [reflexivity |].
  cbn [filter fst]. destruct (String.eqb_spec k0 k) as [-> | Hne]; cbn [negb].
  - exact IH.
  - cbn [find fst]. destruct (String.eqb_spec k0 k); [contradiction | exact IH].
Qed.

Lemma lookup_delete_ne k k' m : k <> k' -> lookup k' (delete k m) = lookup k' m.
Proof.
  intros Hne. unfold lookup, delete.
  induction m as [| (k0, v0) m IH]; [reflexivity |].
  cbn [filter find fst]. destruct (String.eqb_spec k0 k) as [-> | Hk]; cbn [negb].
  - destruct (String.eqb_spec k k'); [contradiction | exact IH].
  - cbn [find fst]. destruct (String.eqb_spec k0 k'); [reflexivity | exact IH].
Qed.

Lemma lookup_insert_eq k v m : lookup k (insert k v m) = Some v.
Proof. unfold lookup, insert. cbn [find fst]. now rewrite String.eqb_refl. Qed.

Lemma lookup_insert_ne k k' v m :
  k <> k' -> lookup k' (insert k v m) = lookup k' m.
Proof.
  intros Hne. unfold insert.
  change (lookup k' ((k, v) :: delete k m))
    with (match (if String.eqb k k' then Some (k, v)
                 else find (fun kv => String.eqb (fst kv) k') (delete k m)) with
          | Some kv => Some (snd kv)
          | None => None
          end).
  destruct (String.eqb_spec k k'); [contradiction |].
  now apply lookup_delete_ne.
Qed.
End MapFacts.

Lemma uint64_range x : 0 <= uint64 x < 2 ^ 64.
Proof. unfold uint64. apply Z.mod_pos_bound. lia. Qed.

Lemma int_small x : - 2 ^ 63 <= x < 2 ^ 63 -> int x = x.
Proof. intros H. unfold int. rewrite Z.mod_small; lia. Qed.

(** Replacing the element of index [k]. *)
Lemma replace_length {A : Type} (l : list A) k v :
  (k < length l)%nat -> length (firstn k l ++ v :: skipn (S k) l) = length l.
Proof.
  intros H. rewrite length_app, length_firstn. cbn [length].
  rewrite length_skipn. lia.
Qed.

Lemma replace_nth {A : Type} (d : A) v : forall (l : list A) k j,
  (k < length l)%nat ->
  nth j (firstn k l ++ v :: skipn (S k) l) d
  = if (j =? k)%nat then v else nth j l d.
Proof.
  induction l as [| a l IH]; intros k j Hk; cbn [length] in Hk; [lia |].
  destruct k as [| k].
  - cbn [firstn skipn app]. destruct j as [| j]; reflexivity.
  - cbn [firstn skipn app]. destruct j as [| j]; [reflexivity |].
    cbn [nth]. rewrite IH by lia. reflexivity.
Qed.

Lemma forallb_false {A : Type} (p : A -> bool) l :
  forallb p l = false <-> exists x, In x l /\ p x = false.
Proof.
  induction l as [| a l IH]; cbn [forallb In].
  - split; [discriminate | intros (x & [] & _)].
  - rewrite andb_false_iff, IH. split.
    + intros [Ha | (x & Hx & Hp)]; [exists a | exists x]; tauto.
    + intros (x & [-> | Hx] & Hp); [now left | right; now exists x].
Qed.

Lemma count_pieces_None ps : count_pieces ps None = None.
Proof. unfold count_pieces. induction ps as [| p ps IH]; [reflexivity | exact IH]. Qed.

Lemma count_pieces_app ps qs acc :
  count_pieces (ps ++ qs) acc = count_pieces qs (count_pieces ps acc).
Proof. unfold count_pieces. apply fold_left_app. Qed.

(** How many of the pieces [ps] belong to chunk [c]. *)
Local Abbreviation cnt ps c :=
  (Z.of_nat (length (filter (fun p => Chunk p =? c) ps))).

Lemma cnt_le ps c : 0 <= cnt ps c <= Z.of_nat (length ps).
Proof. pose proof (filter_length_le (fun p => Chunk p =? c) ps). lia. Qed.

Lemma map_const_seq (z : Z) n s : map (fun _ : nat => z) (seq s n) = repeat z n.
Proof.
  revert s. induction n as [| n IH]; intros s; [reflexivity |].
  cbn [seq map repeat]. now rewrite IH.
Qed.

(** The counting loop: it panics exactly when a piece names a chunk past the
    end of the counters, and otherwise counts the pieces of every chunk. *)
Lemma count_pieces_spec N : forall ps,
  Z.of_nat (length ps) < 2 ^ 63 ->
  Forall (fun p => 0 <= Chunk p) ps ->
  count_pieces ps (Some (repeat 0 N))
  = if forallb (fun p => Chunk p <? Z.of_nat N) ps
    then Some (map (fun k => cnt ps (Z.of_nat k)) (seq 0 N))
    else None.
Proof.
  induction ps as [| p ps IH] using rev_ind; intros Hlen Hpos.
  - cbn [forallb filter length Z.of_nat count_pieces fold_left].
    now rewrite map_const_seq.
  - rewrite length_app in Hlen. cbn [length] in Hlen.
    apply Forall_app in Hpos. destruct Hpos as (Hpos & Hp).
    inversion Hp as [| ? ? Hp0 _]; subst.
    rewrite count_pieces_app, IH by (trivial; lia).
    rewrite forallb_app. cbn [forallb]. rewrite andb_true_r.
    destruct (forallb (fun p0 => Chunk p0 <? Z.of_nat N) ps); cbn [andb];
      [| apply count_pieces_None].
    cbn [count_pieces fold_left]. unfold incr_at.
    rewrite length_map, length_seq.
    destruct (Z.ltb_spec (Chunk p) (Z.of_nat N)) as [Hin | Hout]; [| reflexivity].
    f_equal.
    assert (Hk : (Z.to_nat (Chunk p) < N)%nat) by lia.
    apply (nth_ext _ _ 0 0).
    + rewrite replace_length by (now rewrite length_map, length_seq).
      now rewrite !length_map.
    + intros j Hj.
      rewrite replace_length in Hj by (now rewrite length_map, length_seq).
      rewrite length_map, length_seq in Hj.
      rewrite replace_nth by (now rewrite length_map, length_seq).
      assert (Hnth : forall (g : nat -> Z) i, (i < N)%nat ->
                nth i (map g (seq 0 N)) 0 = g i).
      { intros g i Hi.
        rewrite (nth_indep _ 0 (g 0%nat)) by (now rewrite length_map, length_seq).
        rewrite map_nth, seq_nth by trivial. reflexivity. }
      rewrite !Hnth by trivial.
      rewrite filter_app, length_app. cbn [filter].
      pose proof (cnt_le ps (Chunk p)) as Hc.
      destruct (Nat.eqb_spec j (Z.to_nat (Chunk p))) as [-> | Hne].
      * rewrite Z2Nat.id by trivial. rewrite Z.eqb_refl. cbn [length].
        rewrite int_small by lia. lia.
      * destruct (Z.eqb_spec (Chunk p) (Z.of_nat j)) as [E | _]; [lia |].
        cbn [length]. lia.
Qed.

Section FileFacts.
Variables FileContractID NetAddress TwofishKey ErasureCoder : Type.
Variable MinPieces : ErasureCoder -> Z.

Local Abbreviation file :=
  (Renter.file FileContractID NetAddress TwofishKey ErasureCoder).
Local Abbreviation fileContract :=
  (Renter.fileContract FileContractID NetAddress).

Lemma chunkSize_range (f : file) : 0 <= chunkSize MinPieces f < 2 ^ 64.
Proof. apply uint64_range. Qed.

(** X15.  For a file whose size is a [uint64], [numChunks] panics exactly
    when the file is not empty and the chunk size is zero; otherwise it
    returns the number of chunks needed to hold the file: 1 for an empty
    file, and for the others the only [n] with
    [(n-1).chunkSize < size <= n.chunkSize], which is at least 1 and does
    not wrap around. *)
Theorem numChunks_ceiling (f : file) :
  0 <= size f < 2 ^ 64 ->
  (numChunks MinPieces f = None <-> size f <> 0 /\ chunkSize MinPieces f = 0)
  /\ forall n, numChunks MinPieces f = Some n ->
       1 <= n < 2 ^ 64
       /\ (size f = 0 /\ n = 1
           \/ 0 < chunkSize MinPieces f
              /\ (n - 1) * chunkSize MinPieces f < size f
                 <= n * chunkSize MinPieces f).
Proof.
  intros Hs. pose proof (chunkSize_range f) as Hc. unfold numChunks.
  destruct (Z.eqb_spec (size f) 0) as [E0 | N0].
  - split; [split; [discriminate | tauto] |].
    intros n H. injection H as <-. split; [lia | left; now split].
  - cbv zeta. set (c := chunkSize MinPieces f) in *.
    destruct (Z.eqb_spec c 0) as [Ec | Nc].
    + split; [tauto | discriminate].
    + pose proof (Z.div_mod (size f) c Nc) as Hdm.
      pose proof (Z.mod_pos_bound (size f) c ltac:(lia)) as Hm.
      assert (Hq : 0 <= size f / c) by (apply Z.div_pos; lia).
      destruct (Z.eqb_spec (size f mod c) 0) as [Em | Nm]; cbn [negb].
      * split; [split; [discriminate | tauto] |].
        intros n H. injection H as <-. split; [nia |].
        right. split; [lia |]. nia.
      * assert (Hlt : size f / c + 1 < 2 ^ 64) by nia.
        split; [split; [discriminate | tauto] |].
        intros n H. injection H as <-. unfold uint64.
        rewrite Z.mod_small by lia. split; [lia |].
        right. split; [lia |]. nia.
Qed.

Local Abbreviation lower lowest fc :=
  (if WindowStart (snd fc) <? lowest then WindowStart (snd fc) else lowest%Z).

Lemma fold_lowest (l : list (FileContractID * fileContract)) : forall a,
  fold_left (fun lowest fc => lower lowest fc) l a <= a
  /\ (forall fc, In fc l ->
        fold_left (fun lowest fc => lower lowest fc) l a <= WindowStart (snd fc))
  /\ (fold_left (fun lowest fc => lower lowest fc) l a = a
      \/ exists fc, In fc l
           /\ fold_left (fun lowest fc => lower lowest fc) l a
              = WindowStart (snd fc)).
Proof.
  induction l as [| fc0 l IH]; intros a; cbn [fold_left In].
  - split; [lia |]. split; [contradiction | now left].
  - destruct (IH (lower a fc0)) as (Hle & Hall & Hatt).
    assert (Hstep : lower a fc0 <= a /\ lower a fc0 <= WindowStart (snd fc0)
                    /\ (lower a fc0 = a \/ lower a fc0 = WindowStart (snd fc0)))
      by (destruct (Z.ltb_spec (WindowStart (snd fc0)) a); lia).
    split; [lia |]. split.
    + intros fc [<- | Hin]; [lia | now apply Hall].
    + destruct Hatt as [E | (fc & Hin & E)].
      * destruct Hstep as (_ & _ & [E' | E']); [left; lia |].
        right. exists fc0. split; [now left | lia].
      * right. exists fc. split; [now right | exact E].
Qed.

Lemma expiration_nonempty (f : file) :
  Forall (fun fc => 0 <= WindowStart (snd fc) < 2 ^ 64) (contracts f) ->
  contracts f <> [] ->
  (exists fc, In fc (contracts f) /\ expiration f = WindowStart (snd fc))
  /\ forall fc, In fc (contracts f) -> expiration f <= WindowStart (snd fc).
Proof.
  intros Hr Hne. unfold expiration.
  destruct (contracts f) as [| fc0 l] eqn:Ec; [contradiction |].
  cbn [length Nat.eqb]. rewrite <- Ec in *. clear Hne.
  destruct (fold_lowest (contracts f) (2 ^ 64 - 1)) as (Hle & Hall & Hatt).
  split; [| exact Hall].
  destruct Hatt as [E | Hex]; [| exact Hex].
  assert (Hin : In fc0 (contracts f)) by (rewrite Ec; now left).
  exists fc0. split; trivial.
  pose proof (Hall fc0 Hin) as H1.
  rewrite Forall_forall in Hr. specialize (Hr fc0 Hin). lia.
Qed.

(** X16.  [expiration] is 0 for a file without contracts and otherwise the
    lowest [WindowStart] among its contracts (block heights being
    [uint64]); so it does not depend on the order in which the map of
    contracts is visited, nor on anything but the set of its entries. *)
Theorem expiration_lowest (f : file) :
  Forall (fun fc => 0 <= WindowStart (snd fc) < 2 ^ 64) (contracts f) ->
  (contracts f = [] -> expiration f = 0)
  /\ (contracts f <> [] ->
      (exists fc, In fc (contracts f) /\ expiration f = WindowStart (snd fc))
      /\ forall fc, In fc (contracts f) -> expiration f <= WindowStart (snd fc))
  /\ forall f' : file,
       (forall fc, In fc (contracts f) <-> In fc (contracts f')) ->
       expiration f' = expiration f.
Proof.
  intros Hr. split; [| split].
  - intros E. unfold expiration. now rewrite E.
  - now apply expiration_nonempty.
  - intros f' Hsame.
    assert (Hr' : Forall (fun fc => 0 <= WindowStart (snd fc) < 2 ^ 64)
                    (contracts f')).
    { rewrite Forall_forall in *. intros fc Hin. apply Hr. now apply Hsame. }
    assert (Hcase : contracts f = [] \/ contracts f <> [])
      by (destruct (contracts f); [now left | right; discriminate]).
    destruct Hcase as [E0 | Hne].
    + assert (E0' : contracts f' = []).
      { destruct (contracts f') as [| fc1 l'] eqn:Ec'; trivial.
        exfalso. rewrite E0 in Hsame. apply (proj2 (Hsame fc1)). now left. }
      unfold expiration. now rewrite E0, E0'.
    + destruct (expiration_nonempty f Hr Hne) as ((fc & Hin & E) & Hall).
      pose proof (proj1 (Hsame fc) Hin) as Hin2.
      assert (Hne' : contracts f' <> [])
        by (intros E'; rewrite E' in Hin2; contradiction).
      destruct (expiration_nonempty f' Hr' Hne') as ((fc' & Hin' & E') & Hall').
      pose proof (proj2 (Hsame fc') Hin') as Hin3.
      specialize (Hall fc' Hin3). specialize (Hall' fc Hin2). lia.
Qed.

Lemma contracts_loop (l : list (FileContractID * fileContract)) : forall acc,
  fold_left (fun acc fc => count_pieces (Pieces (snd fc)) acc) l acc
  = count_pieces (flat_map (fun fc => Pieces (snd fc)) l) acc.
Proof.
  induction l as [| fc l IH]; intros acc; cbn [fold_left flat_map].
  - reflexivity.
  - now rewrite IH, count_pieces_app.
Qed.

Variable can_allocate : Z -> bool.

(** X17.  [available], for a file split into [n] chunks whose contracts
    hold fewer than [2^63] pieces in all: the run fails exactly when [n]
    does not fit an [int], or the run time cannot allocate [n] counters, or
    some piece names a chunk that does not exist; and it answers yes exactly
    when none of these happens and every chunk has at least [MinPieces]
    pieces among all the contracts. *)
Theorem available_spec (f : file) n :
  numChunks MinPieces f = Some n ->
  Forall (fun p => 0 <= Chunk p) (all_pieces f) ->
  Z.of_nat (length (all_pieces f)) < 2 ^ 63 ->
  (available MinPieces can_allocate f = None
   <-> 2 ^ 63 <= n \/ can_allocate n = false
       \/ exists p, In p (all_pieces f) /\ n <= Chunk p)
  /\ (available MinPieces can_allocate f = Some true
      <-> n < 2 ^ 63 /\ can_allocate n = true
          /\ (forall p, In p (all_pieces f) -> Chunk p < n)
          /\ forall c, 0 <= c < n ->
               MinPieces (erasureCode f) <= pieces_in_chunk f c).
Proof.
  intros Hn Hpos Hlen. unfold available, make_ints. rewrite Hn.
  destruct (Z.ltb_spec n (2 ^ 63)) as [Hint | Hint]; cbn [andb];
    [| split; [split; [intros _; now left | reflexivity]
              | split; [discriminate | intros (H & _); lia]]].
  destruct (can_allocate n) eqn:Hmem;
    [| split; [split; [intros _; right; now left | reflexivity]
              | split; [discriminate | intros (_ & H & _); discriminate]]].
  rewrite contracts_loop. fold (all_pieces f).
  rewrite count_pieces_spec by trivial.
  destruct (forallb (fun p => Chunk p <? Z.of_nat (Z.to_nat n)) (all_pieces f))
    eqn:Hall.
  - rewrite forallb_forall in Hall.
    assert (Hin : forall p, In p (all_pieces f) -> Chunk p < n).
    { intros p Hp. specialize (Hall p Hp). apply Z.ltb_lt in Hall.
      rewrite Forall_forall in Hpos. specialize (Hpos p Hp). lia. }
    split.
    + split; [discriminate |].
      intros [H | [H | (p & Hp & Hge)]]; [lia | discriminate |].
      specialize (Hin p Hp). lia.
    + split.
      * intros H. injection H as H. repeat split; trivial.
        rewrite forallb_forall in H. intros c Hc.
        specialize (H (pieces_in_chunk f c)).
        rewrite negb_true_iff, Z.ltb_ge in H. apply H.
        apply in_map_iff. exists (Z.to_nat c). unfold pieces_in_chunk.
        rewrite Z2Nat.id by lia. split; [reflexivity |].
        apply in_seq. lia.
      * intros (_ & _ & _ & H). f_equal. apply forallb_forall.
        intros x Hx. apply in_map_iff in Hx. destruct Hx as (k & <- & Hk).
        apply in_seq in Hk. rewrite negb_true_iff, Z.ltb_ge.
        apply (H (Z.of_nat k)). lia.
  - apply forallb_false in Hall. destruct Hall as (p & Hp & Hout).
    apply Z.ltb_ge in Hout.
    split.
    + split; trivial. intros _. right. right. exists p. split; trivial.
      rewrite Forall_forall in Hpos. specialize (Hpos p Hp). lia.
    + split; [discriminate |]. intros (_ & _ & Hin & _).
      specialize (Hin p Hp). lia.
Qed.
End FileFacts.

Section RenterFileFacts.
Variables ConsensusSet Wallet HostDB Logger download Mutex : Type.
Variables FileContractID NetAddress TwofishKey ErasureCoder : Type.
Variable World : Type.

Local Abbreviation file :=
  (Renter.file FileContractID NetAddress TwofishKey ErasureCoder).
Local Abbreviation Renter :=
  (Renter.Renter ConsensusSet Wallet HostDB Logger download Mutex
     FileContractID NetAddress TwofishKey ErasureCoder).

Variable saveFile : Renter -> file -> World -> World * option renter_error.
Variable save : Renter -> World -> World * option renter_error.
Variable RemoveAll : String.string -> World -> World * option renter_error.
Variable Join : String.string -> String.string -> String.string.
Variable ShareExtension : String.string.

(** The renter a call returned, read off the equation [H] on its result. *)
Ltac returned_renter H :=
  let Hr := fresh "Hr" in
  pose proof (f_equal (fun t => snd (fst t)) H) as Hr;
  cbn [fst snd] in Hr; subst; cbn [files persistDir set_files].

(** X18.  [RenameFile] refuses, before touching anything, a current name
    that is not in the map ([ErrUnknownPath], even when the new name is
    taken) and a new name that is ([ErrPathOverload]); so renaming a file
    to the name it has never succeeds. *)
Theorem RenameFile_refused (r : Renter) currentName newName w :
  (lookup currentName (files r) = None ->
   RenameFile saveFile save RemoveAll Join ShareExtension r currentName newName w
   = (w, r, Some ErrUnknownPath))
  /\ (lookup currentName (files r) <> None ->
      lookup newName (files r) <> None ->
      RenameFile saveFile save RemoveAll Join ShareExtension r currentName newName w
      = (w, r, Some ErrPathOverload))
  /\ exists e,
       RenameFile saveFile save RemoveAll Join ShareExtension r
         currentName currentName w = (w, r, Some e)
       /\ (e = ErrUnknownPath \/ e = ErrPathOverload).
Proof.
  unfold RenameFile. split; [| split].
  - now intros ->.
  - intros Hc Hn. destruct (lookup currentName (files r)); [| contradiction].
    destruct (lookup newName (files r)); [reflexivity | contradiction].
  - destruct (lookup currentName (files r)).
    + exists ErrPathOverload. split; [reflexivity | now right].
    + exists ErrUnknownPath. split; [reflexivity | now left].
Qed.

(** X19.  When [RenameFile] returns no error, the file that was under the
    current name is now under the new name, with its name field updated and
    nothing else changed; the current name is free, every other entry of
    the map is as it was, and the two names differ. *)
Theorem RenameFile_success (r r' : Renter) currentName newName w w' :
  RenameFile saveFile save RemoveAll Join ShareExtension r currentName newName w
  = (w', r', None) ->
  exists f,
    lookup currentName (files r) = Some f
    /\ lookup newName (files r) = None
    /\ currentName <> newName
    /\ lookup currentName (files r') = None
    /\ lookup newName (files r') = Some (set_name f newName)
    /\ (forall k, k <> currentName -> k <> newName ->
          lookup k (files r') = lookup k (files r))
    /\ persistDir r' = persistDir r.
Proof.
  unfold RenameFile.
  destruct (lookup currentName (files r)) as [f |] eqn:Ec; [| discriminate].
  destruct (lookup newName (files r)) as [g |] eqn:En; [discriminate |].
  cbv zeta.
  destruct (saveFile _ _ w) as (w1, [e1 |]); [discriminate |].
  destruct (save _ w1) as (w2, [e2 |]); [discriminate |].
  destruct (RemoveAll _ w2) as (w3, [e3 |]); [discriminate |].
  intros H. returned_renter H.
  assert (Hne : currentName <> newName) by (intros ->; congruence).
  exists f. repeat split; trivial.
  - rewrite lookup_insert_ne by congruence. apply lookup_delete_eq.
  - apply lookup_insert_eq.
  - intros k Hk1 Hk2. rewrite lookup_insert_ne by congruence.
    rewrite lookup_delete_ne by congruence.
    now rewrite lookup_insert_ne by congruence.
Qed.

(** X20.  When [RenameFile] has passed its two checks and returns an
    error, the rename is partly done.  Either [saveFile] failed, its error
    is the one returned, and the map still has the file under the current
    name, with a name field that already holds the new name (so the renter
    has changed unless the field held the new name before); or [saveFile]
    succeeded and the entry has already moved to the new name. *)
Theorem RenameFile_failure_state (r r' : Renter) currentName newName w w' err f :
  lookup currentName (files r) = Some f ->
  lookup newName (files r) = None ->
  RenameFile saveFile save RemoveAll Join ShareExtension r currentName newName w
  = (w', r', Some err) ->
  (saveFile (set_files r (insert currentName (set_name f newName) (files r)))
     (set_name f newName) w = (w', Some err)
   /\ lookup currentName (files r') = Some (set_name f newName)
   /\ lookup newName (files r') = None
   /\ (name f <> newName ->
       lookup currentName (files r') <> lookup currentName (files r)))
  \/ ((exists w1,
         saveFile (set_files r (insert currentName (set_name f newName) (files r)))
           (set_name f newName) w = (w1, None))
      /\ lookup currentName (files r') = None
      /\ lookup newName (files r') = Some (set_name f newName)).
Proof.
  intros Ec En. unfold RenameFile. rewrite Ec, En. cbv zeta.
  assert (Hne : currentName <> newName) by (intros ->; congruence).
  assert (Hmoved :
    lookup currentName
      (insert newName (set_name f newName)
         (delete currentName (insert currentName (set_name f newName) (files r))))
    = None
    /\ lookup newName
         (insert newName (set_name f newName)
            (delete currentName (insert currentName (set_name f newName) (files r))))
       = Some (set_name f newName)).
  { split; [| apply lookup_insert_eq].
    rewrite lookup_insert_ne by congruence. apply lookup_delete_eq. }
  destruct (saveFile _ _ w) as (w1, [e1 |]) eqn:Es.
  - intros H. left.
    assert (He : e1 = err) by congruence.
    assert (Hw : w1 = w') by congruence. subst e1 w1.
    returned_renter H. split; [reflexivity |].
    rewrite lookup_insert_eq. split; [reflexivity |].
    split; [now rewrite lookup_insert_ne by congruence |].
    intros Hn E. injection E as E.
    apply Hn. rewrite <- E. reflexivity.
  - destruct (save _ w1) as (w2, [e2 |]).
    + intros H. returned_renter H. right.
      split; [now exists w1 | exact Hmoved].
    + destruct (RemoveAll _ w2) as (w3, [e3 |]); [| discriminate].
      intros H. returned_renter H. right.
      split; [now exists w1 | exact Hmoved].
Qed.

(** X21.  [DeleteFile] returns [ErrUnknownPath] and changes nothing when
    the name is not in the map.  Otherwise the entry is gone from the map
    whatever happens next and the other entries are untouched; the file
    removed from the disk is the one named by the file's name field; when
    removing it fails that error is returned and the renter is not saved,
    and otherwise the result is that of saving the renter without the
    entry. *)
Theorem DeleteFile_outcome (r : Renter) nickname w :
  match DeleteFile save RemoveAll Join ShareExtension r nickname w with
  | (w', r', e) =>
      (lookup nickname (files r) = None ->
       e = Some ErrUnknownPath /\ r' = r /\ w' = w)
      /\ (forall f, lookup nickname (files r) = Some f ->
          lookup nickname (files r') = None
          /\ (forall k, k <> nickname ->
                lookup k (files r') = lookup k (files r))
          /\ persistDir r' = persistDir r
          /\ exists w1 e1,
               RemoveAll (Join (persistDir r)
                            (String.append (name f) ShareExtension)) w
               = (w1, e1)
               /\ match e1 with
                  | Some _ => e = e1 /\ w' = w1
                  | None => save r' w1 = (w', e)
                  end)
  end.
Proof.
  unfold DeleteFile.
  destruct (lookup nickname (files r)) as [f |] eqn:E.
  - cbv zeta. cbn [persistDir set_files].
    assert (Hgone : lookup nickname (delete nickname (files r)) = None
                    /\ forall k, k <> nickname ->
                         lookup k (delete nickname (files r))
                         = lookup k (files r)).
    { split; [apply lookup_delete_eq |].
      intros k Hk. apply lookup_delete_ne. congruence. }
    destruct Hgone as (Hg1 & Hg2).
    destruct (RemoveAll _ w) as (w1, [e1 |]) eqn:Er.
    + cbn [files]. split; [discriminate |]. intros f0 Hf.
      assert (f0 = f) by congruence. subst f0.
      repeat split; trivial. exists w1, (Some e1). now split.
    + destruct (save _ w1) as (w2, e2) eqn:Esv. cbn [files persistDir].
      split; [discriminate |]. intros f0 Hf.
      assert (f0 = f) by congruence. subst f0.
      repeat split; trivial. exists w1, None. split; [exact Er | exact Esv].
  - split; [now intros _ | intros f H; discriminate].
Qed.
End RenterFileFacts.
Lemma numChunks_ceiling_witness :
  let f := RenterExample.f0 in
  let MinPieces := RenterExample.MinPieces in
  (numChunks MinPieces f = None <-> size f <> 0 /\ chunkSize MinPieces f = 0)
  /\ forall n, numChunks MinPieces f = Some n ->
       1 <= n < 2 ^ 64
       /\ (size f = 0 /\ n = 1
           \/ 0 < chunkSize MinPieces f
              /\ (n - 1) * chunkSize MinPieces f < size f
                 <= n * chunkSize MinPieces f).
Proof.
  apply (numChunks_ceiling _ _ _ _ RenterExample.MinPieces RenterExample.f0).
  cbn [size RenterExample.f0]. lia.
Defined.

Lemma expiration_lowest_witness :
  let f := RenterExample.f0 in
  (contracts f = [] -> expiration f = 0)
  /\ (contracts f <> [] ->
      (exists fc, In fc (contracts f) /\ expiration f = WindowStart (snd fc))
      /\ forall fc, In fc (contracts f) -> expiration f <= WindowStart (snd fc))
  /\ forall f' : Renter.file nat unit unit unit,
       (forall fc, In fc (contracts f) <-> In fc (contracts f')) ->
       expiration f' = expiration f.
Proof.
  apply (expiration_lowest _ _ _ _ RenterExample.f0).
  cbn [contracts RenterExample.f0].
  repeat constructor; cbn [snd WindowStart]; lia.
Defined.

Lemma available_spec_witness :
  let f := RenterExample.f0 in
  let MinPieces := RenterExample.MinPieces in
  let can_allocate := RenterExample.can_allocate in
  available MinPieces can_allocate f = Some true
  /\ (available MinPieces can_allocate f = None
      <-> 2 ^ 63 <= 2 \/ can_allocate 2 = false
          \/ exists p, In p (all_pieces f) /\ 2 <= Chunk p)
  /\ (available MinPieces can_allocate f = Some true
      <-> 2 < 2 ^ 63 /\ can_allocate 2 = true
          /\ (forall p, In p (all_pieces f) -> Chunk p < 2)
          /\ forall c, 0 <= c < 2 ->
               MinPieces (erasureCode f) <= pieces_in_chunk f c).
Proof.
  split; [reflexivity |].
  apply (available_spec _ _ _ _ RenterExample.MinPieces
           RenterExample.can_allocate RenterExample.f0 2).
  - reflexivity.
  - unfold all_pieces. cbn [contracts RenterExample.f0 flat_map snd Pieces app].
    repeat constructor; cbn [Chunk]; lia.
  - unfold all_pieces. cbn [contracts RenterExample.f0 flat_map snd Pieces app length].
    lia.
Defined.

Lemma RenameFile_success_witness :
  exists r' w',
    RenameFile RenterExample.saveFile RenterExample.save RenterExample.RemoveAll
      RenterExample.Join RenterExample.ShareExtension RenterExample.r0
      RenterExample.a RenterExample.b [] = (w', r', None)
    /\ exists f,
         lookup RenterExample.a (files RenterExample.r0) = Some f
         /\ lookup RenterExample.b (files RenterExample.r0) = None
         /\ RenterExample.a <> RenterExample.b
         /\ lookup RenterExample.a (files r') = None
         /\ lookup RenterExample.b (files r') = Some (set_name f RenterExample.b)
         /\ (forall k, k <> RenterExample.a -> k <> RenterExample.b ->
               lookup k (files r') = lookup k (files RenterExample.r0))
         /\ persistDir r' = persistDir RenterExample.r0.
Proof.
  eexists. eexists. split.
  - reflexivity.
  - eapply (RenameFile_success _ _ _ _ _ _ _ _ _ _ _
             RenterExample.saveFile RenterExample.save RenterExample.RemoveAll
             RenterExample.Join RenterExample.ShareExtension
             RenterExample.r0 _ RenterExample.a RenterExample.b [] _).
    reflexivity.
Defined.

Lemma RenameFile_failure_state_witness :
  exists r' w' err,
    RenameFile RenterExample.saveFile_fails RenterExample.save
      RenterExample.RemoveAll RenterExample.Join RenterExample.ShareExtension
      RenterExample.r0 RenterExample.a RenterExample.b []
    = (w', r', Some err)
    /\ ((RenterExample.saveFile_fails
           (set_files RenterExample.r0
              (insert RenterExample.a
                 (set_name RenterExample.f0 RenterExample.b)
                 (files RenterExample.r0)))
           (set_name RenterExample.f0 RenterExample.b) [] = (w', Some err)
         /\ lookup RenterExample.a (files r')
            = Some (set_name RenterExample.f0 RenterExample.b)
         /\ lookup RenterExample.b (files r') = None
         /\ (name RenterExample.f0 <> RenterExample.b ->
             lookup RenterExample.a (files r')
             <> lookup RenterExample.a (files RenterExample.r0)))
        \/ ((exists w1,
               RenterExample.saveFile_fails
                 (set_files RenterExample.r0
                    (insert RenterExample.a
                       (set_name RenterExample.f0 RenterExample.b)
                       (files RenterExample.r0)))
                 (set_name RenterExample.f0 RenterExample.b) [] = (w1, None))
            /\ lookup RenterExample.a (files r') = None
            /\ lookup RenterExample.b (files r')
               = Some (set_name RenterExample.f0 RenterExample.b))).
Proof.
  eexists. eexists. eexists. split.
  - reflexivity.
  - eapply (RenameFile_failure_state _ _ _ _ _ _ _ _ _ _ _
              RenterExample.saveFile_fails RenterExample.save
              RenterExample.RemoveAll RenterExample.Join
              RenterExample.ShareExtension
              RenterExample.r0 _ RenterExample.a RenterExample.b [] _ _
              RenterExample.f0).
    + reflexivity.
    + reflexivity.
    + reflexivity.
Defined.
End RenterFacts.
